(** * Crossword generator: the CSP solver of [generate.py]

    A shallow embedding of [CrosswordCreator] (node consistency, [revise],
    [ac3], the two search heuristics and [backtrack]) together with the
    properties its specification states about it.

    Conventions of the embedding.
    - A Python [set] that the code iterates over ([crossword.variables],
      [crossword.neighbors(x)], a domain before [revise] turns it into a
      list) is a duplicate-free [list] whose order is the iteration order.
    - [self.domains] is only ever read and written by key: it is a [gmap].
    - A [dict] that the code iterates over (an assignment, the local
      dictionaries of the heuristics) is an association list in insertion
      order.
    - A Python exception ends the computation: it is the [Raise] outcome.
    - The [while] loop of [ac3] and the recursion of [backtrack] run on
      fuel; the lemmas of the section on termination show that the fuel the
      model supplies is always enough. *)

From Stdlib Require Import Ascii String Arith Lia.
From stdpp Require Import base decidable countable option list strings gmap fin_maps sorting.

Open Scope string_scope.
Open Scope list_scope.
Open Scope nat_scope.

(** ** Outcomes of a Python computation *)

Inductive exn : Set := KeyError | IndexError | TypeError | ValueError.

Inductive outcome (A : Type) : Type :=
| Ok (a : A)
| Raise (e : exn)
| OutOfFuel.
Arguments Ok {A} a.
Arguments Raise {A} e.
Arguments OutOfFuel {A}.

#[export] Instance outcome_ret : MRet outcome := @Ok.
#[export] Instance outcome_bind : MBind outcome := λ A B f m,
  match m with
  | Ok a => f a
  | Raise e => Raise e
  | OutOfFuel => OutOfFuel
  end.

(** A [for] loop that keeps the elements passing a test that may raise. *)
Fixpoint filterM {A} (p : A → outcome bool) (l : list A) : outcome (list A) :=
  match l with
  | [] => Ok []
  | a :: l' =>
      b ← p a;
      r ← filterM p l';
      Ok (if b : bool then a :: r else r)
  end.

(** A [for] loop that threads an accumulator through a body that may raise. *)
Fixpoint foldM {A S} (f : S → A → outcome S) (s : S) (l : list A) : outcome S :=
  match l with
  | [] => Ok s
  | a :: l' => s' ← f s a; foldM f s' l'
  end.

(** ** The puzzle model consumed by the solver *)

Inductive Direction : Set := ACROSS | DOWN.

(** [Variable(i, j, direction, length)] of [crossword.py]. *)
Record Var : Set := mkVar {
  var_i : nat;
  var_j : nat;
  var_direction : Direction;
  var_length : nat
}.

#[export] Instance Direction_eq_dec : EqDecision Direction.
Proof. solve_decision. Defined.

#[export] Instance Var_eq_dec : EqDecision Var.
Proof. solve_decision. Defined.

Definition Var_to_tuple (v : Var) : nat * nat * bool * nat :=
  (var_i v, var_j v, bool_decide (var_direction v = DOWN), var_length v).

Definition Var_of_tuple (t : nat * nat * bool * nat) : Var :=
  let '(i, j, d, n) := t in mkVar i j (if d then DOWN else ACROSS) n.

#[export] Instance Var_countable : Countable Var.
Proof.
  refine (inj_countable' Var_to_tuple Var_of_tuple _).
  intros [i j [] n]; reflexivity.
Defined.

(** What the solver reads of a [Crossword] object: the set of variables and
    the result of [neighbors] in iteration order, the vocabulary, and the
    [overlaps] table ([None] is Python's [None]: the two slots share no
    cell). The table has an entry for every ordered pair of distinct
    variables, and the solver only looks up a variable with one of its
    neighbors, so that the lookup itself never fails. *)
Record Crossword : Type := mkCrossword {
  variables : list Var;
  words : list string;
  overlaps : Var → Var → option (nat * nat);
  neighbors : Var → list Var
}.

Abbreviation Arc := (Var * Var)%type.

(** ** The Domain Store *)

Abbreviation Store := (gmap Var (list string)).

(** [self.domains[x]] as an expression. *)
Definition getitem (d : Store) (x : Var) : outcome (list string) :=
  match d !! x with
  | Some ws => Ok ws
  | None => Raise KeyError
  end.

(** [__init__]: every variable starts with a copy of the vocabulary. *)
Definition init_domains (c : Crossword) : Store :=
  foldl (λ d var, <[var := words c]> d) ∅ (variables c).

(** [word[k]] for a non-negative index [k]. *)
Definition subscript (word : string) (k : nat) : outcome ascii :=
  match String.get k word with
  | Some ch => Ok ch
  | None => Raise IndexError
  end.

(** [wordX[overlap[0]] == wordY[overlap[1]]]; subscripting [None] is a
    [TypeError]. *)
Definition overlap_eq (overlap : option (nat * nat)) (wordX wordY : string)
  : outcome bool :=
  match overlap with
  | None => Raise TypeError
  | Some (ix, iy) =>
      cx ← subscript wordX ix;
      cy ← subscript wordY iy;
      Ok (Ascii.eqb cx cy)
  end.

(** ** Node consistency *)

(** [newDomains[var].remove(word)] on a set. *)
Definition remove_word (word : string) (ws : list string) : list string :=
  filter (λ w, w ≠ word) ws.

Definition enforce_node_consistency (c : Crossword) (d : Store) : outcome Store :=
  foldM (λ newDomains var,
           ws ← getitem d var;
           foldM (λ nd word,
                    if bool_decide (var_length var ≠ String.length word)
                    then cur ← getitem nd var;
                         Ok (<[var := remove_word word cur]> nd)
                    else Ok nd)
                 newDomains ws)
        d (variables c).

(** ** Arc consistency *)

(** The body of the outer loop of [revise]: does [wordX] keep a partner? *)
Definition has_overlap_word (d : Store) (overlap : option (nat * nat))
    (y : Var) (wordX : string) : outcome bool :=
  dy ← getitem d y;
  overlapWords ← filterM (overlap_eq overlap wordX) dy;
  Ok (negb (length overlapWords =? 0)).

Definition revise (c : Crossword) (x y : Var) (d : Store)
  : outcome (bool * Store) :=
  let overlap := overlaps c x y in
  dx ← getitem d x;
  domain ← filterM (has_overlap_word d overlap y) dx;
  let d' := <[x := domain]> d in
  now ← getitem d' x;
  Ok (negb (length domain =? length now), d').

(** One turn of the [while] loop of [ac3], for the popped arc [(x, y)] and
    the rest of the queue. *)
Inductive loop_step : Type :=
| Continue (queue : list Arc) (d : Store)
| Return (b : bool) (d : Store).

Definition ac3_body (c : Crossword) (x y : Var) (queue : list Arc) (d : Store)
  : outcome loop_step :=
  '(revised, d') ← revise c x y d;
  if revised : bool then
    dx ← getitem d' x;
    if length dx =? 0 then Ok (Return false d')
    else
      Ok (Continue
            (queue ++ map (pair x)
               (filter (λ z, var_i z ≠ var_i y ∧ var_j z ≠ var_j y)
                       (neighbors c x)))
            d')
  else Ok (Continue queue d').

Fixpoint ac3_loop (c : Crossword) (fuel : nat) (queue : list Arc) (d : Store)
  : outcome (bool * Store) :=
  match queue with
  | [] => Ok (true, d)
  | (x, y) :: rest =>
      match fuel with
      | 0 => OutOfFuel
      | S fuel' =>
          step ← ac3_body c x y rest d;
          match step with
          | Return b d' => Ok (b, d')
          | Continue queue' d' => ac3_loop c fuel' queue' d'
          end
      end
  end.

(** The initial queue: every arc of the problem when [arcs] is [None]. *)
Definition all_arcs (c : Crossword) : list Arc :=
  x ← variables c; map (pair x) (neighbors c x).

Definition initial_queue (c : Crossword) (arcs : option (list Arc)) : list Arc :=
  match arcs with
  | None => all_arcs c
  | Some l => l
  end.

Definition ac3 (c : Crossword) (arcs : option (list Arc)) (d : Store)
  : outcome (bool * Store) :=
  let queue := initial_queue c arcs in
  ac3_loop c (length queue) queue d.

(** ** Dictionaries in insertion order *)

Section Dict.
Context {K V : Type} {eqK : EqDecision K}.

Fixpoint dict_get (k : K) (m : list (K * V)) : option V :=
  match m with
  | [] => None
  | (k', v) :: m' => if decide (k' = k) then Some v else dict_get k m'
  end.

(** [m[k] = v]: an existing key keeps its place, a new one goes last. *)
Fixpoint dict_set (k : K) (v : V) (m : list (K * V)) : list (K * V) :=
  match m with
  | [] => [(k, v)]
  | (k', v') :: m' =>
      if decide (k' = k) then (k', v) :: m' else (k', v') :: dict_set k v m'
  end.

(** [m[k]] as an expression. *)
Definition dict_getitem (m : list (K * V)) (k : K) : outcome V :=
  match dict_get k m with
  | Some v => Ok v
  | None => Raise KeyError
  end.

(** [k in m]. *)
Definition dict_in (k : K) (m : list (K * V)) : bool :=
  bool_decide (k ∈ m.*1).
End Dict.

Abbreviation Assignment := (list (Var * string)).

(** ** Completeness and consistency of an assignment *)

Definition assignment_complete (c : Crossword) (a : Assignment) : bool :=
  forallb (λ var, dict_in var a) (variables c).

(** [len(assignment.values()) != len(set(assignment.values()))]. *)
Definition repeated_value (a : Assignment) : bool :=
  negb (length a.*2 =? length (remove_dups a.*2)).

(** The inner loop of [consistent]; [Ok false] is its [return False]. A
    value of an assignment is a word, never [None], so the [continue] is
    never taken; a neighbor without a value is a [KeyError]. *)
Fixpoint consistent_neighbors (c : Crossword) (a : Assignment) (var : Var)
    (ns : list Var) : outcome bool :=
  match ns with
  | [] => Ok true
  | neighbor :: ns' =>
      wn ← dict_getitem a neighbor;
      match overlaps c var neighbor with
      | Some (ix, iy) =>
          wv ← dict_getitem a var;
          cv ← subscript wv ix;
          cn ← subscript wn iy;
          if negb (Ascii.eqb cv cn) then Ok false
          else consistent_neighbors c a var ns'
      | None => consistent_neighbors c a var ns'
      end
  end.

Fixpoint consistent_loop (c : Crossword) (a : Assignment) (vars : list Var)
  : outcome bool :=
  match vars with
  | [] => Ok true
  | var :: vars' =>
      if repeated_value a then Ok false
      else
        w ← dict_getitem a var;
        if bool_decide (var_length var ≠ String.length w) then Ok false
        else
          ok ← consistent_neighbors c a var (neighbors c var);
          if ok : bool then consistent_loop c a vars' else Ok false
  end.

Definition consistent (c : Crossword) (a : Assignment) : outcome bool :=
  consistent_loop c a a.*1.

(** ** Value ordering *)

(** The counter [n] of [order_domain_values] for one word of [var]. *)
Definition count_for (c : Crossword) (d : Store) (var : Var) (a : Assignment)
    (varWord : string) : outcome nat :=
  foldM (λ n neighbor,
           if dict_in neighbor a then Ok n
           else
             dn ← getitem d neighbor;
             foldM (λ n neighborWord,
                      b ← overlap_eq (overlaps c var neighbor) varWord neighborWord;
                      Ok (if b : bool then S n else n))
                   n dn)
        0 (neighbors c var).

(** [sorted(items, key=lambda item: item[1])]: Python's sort is stable. *)
Fixpoint insert_by_value {A} (x : A * nat) (l : list (A * nat)) : list (A * nat) :=
  match l with
  | [] => [x]
  | y :: l' => if x.2 <=? y.2 then x :: y :: l' else y :: insert_by_value x l'
  end.

Definition sorted_by_value {A} (l : list (A * nat)) : list (A * nat) :=
  foldr insert_by_value [] l.

Definition order_domain_values (c : Crossword) (d : Store) (var : Var)
    (a : Assignment) : outcome (list string) :=
  dv ← getitem d var;
  unorderedValues ←
    foldM (λ m varWord, n ← count_for c d var a varWord; Ok (dict_set varWord n m))
          [] dv;
  Ok (sorted_by_value unorderedValues).*1.

(** ** Variable selection *)

(** [min(values)]; the minimum of nothing is a [ValueError]. *)
Definition py_min (l : list nat) : outcome nat :=
  match l with
  | [] => Raise ValueError
  | n :: l' => Ok (foldl Nat.min n l')
  end.

(** [seq[0]]. *)
Definition first {A} (l : list A) : outcome A :=
  match l with
  | [] => Raise IndexError
  | x :: _ => Ok x
  end.

(** [random.choice(seq)]: [rnd k] is the [k]-th number the generator draws;
    choosing from an empty sequence is an [IndexError]. *)
Definition random_choice {A} (rnd : nat → nat) (k : nat) (l : list A)
  : outcome (A * nat) :=
  match l !! (rnd k mod length l) with
  | Some x => Ok (x, S k)
  | None => Raise IndexError
  end.

(** The variables whose entry in the dictionary [m] is the least one. *)
Definition with_min_value (m : list (Var * nat)) (vars : list Var)
  : outcome (list Var) :=
  filterM (λ var, n ← dict_getitem m var; least ← py_min m.*2; Ok (n =? least)) vars.

(** The dictionary [untreatedVar]: the size of the domain of each variable
    that has no word yet. *)
Definition untreated (c : Crossword) (a : Assignment) (d : Store)
  : outcome (list (Var * nat)) :=
  foldM (λ m var,
           if dict_in var a then Ok m
           else ws ← getitem d var; Ok (dict_set var (length ws) m))
        [] (variables c).

(** The dictionary [varDegree]: the number of neighbors of each of [vars]. *)
Definition degrees (c : Crossword) (vars : list Var) : list (Var * nat) :=
  foldl (λ m var, dict_set var (length (neighbors c var)) m) [] vars.

Definition select_unassigned_variable (c : Crossword) (rnd : nat → nat)
    (a : Assignment) (d : Store) (k : nat) : outcome (Var * nat) :=
  untreatedVar ← untreated c a d;
  orderedUntreatedVarByMinValue ← with_min_value untreatedVar untreatedVar.*1;
  if length untreatedVar =? 1 then
    var ← first orderedUntreatedVarByMinValue; Ok (var, k)
  else
    let varDegree := degrees c orderedUntreatedVarByMinValue in
    orderedUntreatedVarByDegree ←
      with_min_value varDegree orderedUntreatedVarByMinValue;
    random_choice rnd k orderedUntreatedVarByDegree.

(** ** Backtracking search *)

(** The state of a [CrosswordCreator] during [solve]: the Domain Store, the
    number of draws made from the random generator, and a ghost counter of
    the calls of [backtrack] (no operation reads it). *)
Record Solver : Type := mkSolver {
  domains : Store;
  draws : nat;
  calls : nat
}.

Definition with_domains (st : Solver) (d : Store) : Solver :=
  mkSolver d (draws st) (calls st).

Abbreviation Search := (Assignment → Solver → outcome (option Assignment * Solver)).

(** The body of the [for value in ...] loop up to the recursive call; [rec]
    is the recursive call. *)
Definition try_value (c : Crossword) (rec : Search) (a : Assignment)
    (selectedVar : Var) (value : string) (st : Solver)
  : outcome (option Assignment * Solver) :=
  let newAssignment := dict_set selectedVar value a in
  let arcs := map (pair selectedVar) (neighbors c selectedVar) in
  '(_, d') ← ac3 c (Some arcs) (domains st);
  rec newAssignment (with_domains st d').

(** The [for value in ...] loop: it stops at the first result that is not
    [None]. *)
Fixpoint try_values (c : Crossword) (rec : Search) (a : Assignment)
    (selectedVar : Var) (values : list string) (st : Solver)
  : outcome (option Assignment * Solver) :=
  match values with
  | [] => Ok (None, st)
  | value :: values' =>
      '(result, st') ← try_value c rec a selectedVar value st;
      match result with
      | Some r => Ok (Some r, st')
      | None => try_values c rec a selectedVar values' st'
      end
  end.

(** [backtrack]. [savedDomain] is a reference to the domain object of the
    selected variable; no operation changes a domain object in place
    ([revise] binds the key to a new list), so that it holds the words the
    domain had on entry. A call whose loop ends without a result falls off
    the end of the function and returns [None]. *)
Fixpoint backtrack (c : Crossword) (rnd : nat → nat) (fuel : nat)
    (a : Assignment) (st : Solver) : outcome (option Assignment * Solver) :=
  match fuel with
  | 0 => OutOfFuel
  | S fuel' =>
      let st := mkSolver (domains st) (draws st) (S (calls st)) in
      if assignment_complete c a then
        ok ← consistent c a;
        Ok (if ok : bool then Some a else None, st)
      else
        '(selectedVar, k) ←
          select_unassigned_variable c rnd a (domains st) (draws st);
        let st := mkSolver (domains st) k (calls st) in
        savedDomain ← getitem (domains st) selectedVar;
        values ← order_domain_values c (domains st) selectedVar a;
        '(result, st') ←
          try_values c (backtrack c rnd fuel') a selectedVar values st;
        match result with
        | Some r => Ok (Some r, st')
        | None => Ok (None, with_domains st' (<[selectedVar := savedDomain]> (domains st')))
        end
  end.

(** [solve]: the result of [ac3] is dropped. *)
Definition solve (c : Crossword) (rnd : nat → nat)
  : outcome (option Assignment * Solver) :=
  d1 ← enforce_node_consistency c (init_domains c);
  '(_, d2) ← ac3 c None d1;
  backtrack c rnd (S (length (variables c))) [] (mkSolver d2 0 0).

(** ** The letter grid *)

(** A grid of letters: rows of cells, a cell is [None] or a letter. *)
Abbreviation Grid := (list (list (option ascii))).

(** [[[None for _ in range(width)] for _ in range(height)]]. *)
Definition blank_grid (height width : nat) : Grid :=
  replicate height (replicate width None).

(** [letters[i][j] = ch]: a row or a column outside the grid is an
    [IndexError]. *)
Definition grid_set (letters : Grid) (i j : nat) (ch : ascii) : outcome Grid :=
  match letters !! i with
  | None => Raise IndexError
  | Some row =>
      if decide (j < length row)
      then Ok (<[i := <[j := Some ch]> row]> letters)
      else Raise IndexError
  end.

(** The cell of the [k]-th letter of a slot. *)
Definition cell_of (variable : Var) (k : nat) : nat * nat :=
  (var_i variable + (if var_direction variable is DOWN then k else 0),
   var_j variable + (if var_direction variable is ACROSS then k else 0)).

(** The inner loop of [letter_grid]: the letters of one word. *)
Definition write_word (variable : Var) (word : string) (letters : Grid)
  : outcome Grid :=
  foldM (λ letters k,
           ch ← subscript word k;
           grid_set letters (cell_of variable k).1 (cell_of variable k).2 ch)
        letters (seq 0 (String.length word)).

(** [letter_grid], for a crossword of the given [height] and [width]. *)
Definition letter_grid (height width : nat) (assignment : Assignment)
  : outcome Grid :=
  foldM (λ letters '(variable, word), write_word variable word letters)
        (blank_grid height width) assignment.

(** ** Puzzles built from a grid *)

(** Modelled from the spec: the puzzle model ([crossword.py], not among the
    sources): the cells a slot covers (the geometry [letter_grid] uses), the
    overlap of two distinct slots as the indices of their shared cell, and
    the neighbors of a slot as the slots sharing a cell with it. Used to
    build the concrete puzzles below. *)
Definition cells (v : Var) : list (nat * nat) :=
  map (λ k, (var_i v + (if var_direction v is DOWN then k else 0),
             var_j v + (if var_direction v is ACROSS then k else 0)))
      (seq 0 (var_length v)).

Definition crossing (x y : Var) : option (nat * nat) :=
  if decide (x = y) then None
  else
    '(ix, cell) ← list_find (λ cell, cell ∈ cells y) (cells x);
    '(iy, _) ← list_find (λ cell', cell' = cell) (cells y);
    Some (ix, iy).

Definition puzzle (vars : list Var) (vocabulary : list string) : Crossword :=
  mkCrossword vars vocabulary crossing
    (λ v, filter (λ y, y ≠ v ∧ is_Some (crossing y v)) vars).

Module Examples.

(** A three-slot chain on a 3 x 5 grid:
<<
    A A . . .
    . B . . .
    . C C C C
>>
    [slotA] (across, length 2) meets [slotB] (down, length 3) in its
    second letter; [slotB] meets [slotC] (across, length 4) in its third
    letter. *)
Definition slotA : Var := mkVar 0 0 ACROSS 2.
Definition slotB : Var := mkVar 0 1 DOWN 3.
Definition slotC : Var := mkVar 2 1 ACROSS 4.

Definition chain (vocabulary : list string) : Crossword :=
  puzzle [slotA; slotB; slotC] vocabulary.

Definition vocab1 : list string := ["EF"; "AB"; "BXC"; "FYZ"; "CCCC"].

(** The Domain Store of [chain vocab1] after node consistency, and after
    the pass of [ac3] over all arcs that [solve] runs next. *)
Definition nodes1 : Store :=
  list_to_map [(slotA, ["EF"; "AB"]); (slotB, ["BXC"; "FYZ"]); (slotC, ["CCCC"])].

Definition store1 : Store :=
  list_to_map [(slotA, ["EF"; "AB"]); (slotB, ["BXC"]); (slotC, ["CCCC"])].

(** No word that fits [slotA] agrees with the one that fits [slotB]. *)
Definition vocab_clash : list string := ["AB"; "XYZ"; "CCCC"].

(** No word of three letters: node consistency empties [slotB]. *)
Definition vocab_short : list string := ["AB"; "CCCC"].

(** ["AB"] has two partners in [slotB], ["CD"] has one. *)
Definition vocab_lcv : list string :=
  ["AB"; "CD"; "BXC"; "BYC"; "DZC"; "CCCC"].

Definition store_lcv : Store :=
  list_to_map [(slotA, ["AB"; "CD"]); (slotB, ["BXC"; "BYC"; "DZC"]);
               (slotC, ["CCCC"])].

(** The same chain with a last slot of two letters, so that the first
    and the last slot draw from the same words:
<<
    A A .
    . B .
    . D D
>> *)
Definition slotD : Var := mkVar 2 1 ACROSS 2.

Definition twin : Crossword :=
  puzzle [slotA; slotB; slotD] ["CB"; "XF"; "BXC"; "FYZ"].

Definition store_twin : Store :=
  list_to_map [(slotA, ["CB"; "XF"]); (slotB, ["BXC"]); (slotD, ["CB"])].

(** A generator that always draws 0. *)
Definition rnd0 : nat → nat := λ _, 0.

(** A chain of four slots: [slotA], [slotB], [slotC] and, down from the
    last letter of [slotC], [slotE] of length 5. The words of each end of
    the chain rule out words all the way to the other end. The variables
    are iterated in the order [vars]; [revB] and [revC] swap the two
    neighbors of [slotB] and of [slotC], which covers every iteration
    order of the sets of the model. *)
Definition slotE : Var := mkVar 2 4 DOWN 5.

Definition vocab4 : list string :=
  ["AP"; "AQ"; "PXR"; "ZXS"; "QXT"; "RXXU"; "SXXV"; "TXXW"; "UXXXX"; "VXXXX"].

Definition reorder (revB revC : bool) (c : Crossword) : Crossword :=
  mkCrossword (variables c) (words c) (overlaps c)
    (λ v, if decide (v = slotB) then
            (if revB then reverse (neighbors c v) else neighbors c v)
          else if decide (v = slotC) then
            (if revC then reverse (neighbors c v) else neighbors c v)
          else neighbors c v).

Definition chain4 (vars : list Var) (revB revC : bool) : Crossword :=
  reorder revB revC (puzzle vars vocab4).

End Examples.

Import Examples.

(** * Vocabulary of the properties *)

(** [wordX] is supported in the domain [dy] of the other end of the arc. *)
Definition supported (overlap : option (nat * nat)) (dy : list string)
    (wordX : string) : Prop :=
  ∃ wordY ix iy ch, wordY ∈ dy ∧ overlap = Some (ix, iy) ∧
    String.get ix wordX = Some ch ∧ String.get iy wordY = Some ch.

(** Two stores with the same keys. *)
Definition same_keys (d d' : Store) : Prop :=
  ∀ v, is_Some (d' !! v) ↔ is_Some (d !! v).

(** Every variable of the model has a word. *)
Definition complete (c : Crossword) (a : Assignment) : Prop :=
  ∀ v, v ∈ variables c → is_Some (dict_get v a).

(** Two different variables never hold the same word. *)
Definition distinct_words (a : Assignment) : Prop :=
  ∀ x y wx wy, x ≠ y → dict_get x a = Some wx → dict_get y a = Some wy → wx ≠ wy.

(** Every word has the length of its slot. *)
Definition lengths_match (a : Assignment) : Prop :=
  ∀ v w, dict_get v a = Some w → String.length w = var_length v.

(** Every assigned variable agrees with each of its neighbors on the letter
    of their shared cell. *)
Definition overlaps_satisfied (c : Crossword) (a : Assignment) : Prop :=
  ∀ x y wx ix iy,
    dict_get x a = Some wx → y ∈ neighbors c x → overlaps c x y = Some (ix, iy) →
    ∃ wy ch, dict_get y a = Some wy ∧
      String.get ix wx = Some ch ∧ String.get iy wy = Some ch.

(** A dictionary whose entries are the graph of [g]. *)
Definition graph_of (g : Var → nat) (m : list (Var * nat)) : Prop :=
  ∀ v n, (v, n) ∈ m → n = g v.

(** The number of words left for [v], and the number of its neighbors. *)
Definition domain_size (d : Store) (v : Var) : nat :=
  length (default [] (d !! v)).

Definition degree (c : Crossword) (v : Var) : nat := length (neighbors c v).

(** A variable of the model that has no word in [a]. *)
Definition unassigned (c : Crossword) (a : Assignment) (v : Var) : Prop :=
  v ∈ variables c ∧ dict_in v a = false.

(** The number of variables of the model still without a word: it bounds
    the depth of the recursion of [backtrack]. *)
Definition unassigned_count (c : Crossword) (a : Assignment) : nat :=
  length (filter (λ v, dict_in v a = false) (variables c)).

(** Arc consistency of a store: every word of every domain has a partner
    in the domain of each neighbor. *)
Definition arc_consistent (c : Crossword) (d : Store) : Prop :=
  ∀ x y dx dy w,
    x ∈ variables c → y ∈ neighbors c x →
    d !! x = Some dx → d !! y = Some dy → w ∈ dx →
    supported (overlaps c x y) dy w.

(** A test for arc consistency. *)
Definition arc_consistentb (c : Crossword) (d : Store) : bool :=
  forallb (λ x,
    forallb (λ y,
      match d !! x, d !! y with
      | Some dx, Some dy =>
          forallb (λ w,
            existsb (λ wy,
              match overlap_eq (overlaps c x y) w wy with
              | Ok true => true
              | _ => false
              end) dy) dx
      | _, _ => true
      end) (neighbors c x)) (variables c).

(** Node consistency then [ac3] over all arcs, as [solve] runs them:
    [ac3] returns [True] and the store is not arc consistent. *)
Definition single_pass_fails (c : Crossword) : bool :=
  match enforce_node_consistency c (init_domains c) with
  | Ok d1 =>
      match ac3 c None d1 with
      | Ok (true, d2) => negb (arc_consistentb c d2)
      | _ => false
      end
  | _ => false
  end.

(** Node consistency then [ac3] over all arcs: [ac3] returns [True] and
    the domain of [slotA] or of [slotB] is empty. *)
Definition single_pass_empties (c : Crossword) : bool :=
  match enforce_node_consistency c (init_domains c) with
  | Ok d1 =>
      match ac3 c None d1 with
      | Ok (true, d2) =>
          bool_decide (d2 !! slotA = Some [] ∨ d2 !! slotB = Some [])
      | _ => false
      end
  | _ => false
  end.

(** The [neighbors] of a variable include every variable of the model that
    has an overlap with it, as they do in a [puzzle]. *)
Definition overlapping_are_neighbors (c : Crossword) : Prop :=
  ∀ x y, x ∈ variables c → y ∈ variables c →
         is_Some (overlaps c x y) → y ∈ neighbors c x.

(** Node consistency followed by the pass of [ac3] over all arcs leaves
    some variable of the model with an empty domain. *)
Definition pruned_empty (c : Crossword) : Prop :=
  ∃ d1 b d2 v,
    enforce_node_consistency c (init_domains c) = Ok d1 ∧
    ac3 c None d1 = Ok (b, d2) ∧
    v ∈ variables c ∧ d2 !! v = Some [].

(** [solve] answers [None] and [backtrack] was never called. *)
Definition returns_without_search (c : Crossword) (rnd : nat → nat) : Prop :=
  ∃ st, solve c rnd = Ok (None, st) ∧ calls st = 0.

(** [w] and [wn] carry the same letter at the indices of the overlap. *)
Definition compatible (overlap : option (nat * nat)) (w wn : string) : bool :=
  match overlap with
  | Some (ix, iy) =>
      match String.get ix w, String.get iy wn with
      | Some cx, Some cy => Ascii.eqb cx cy
      | _, _ => false
      end
  | None => true
  end.

(** The count the specification asks for, in its words: the sum, over the
    neighbors of [var] without a word, of the number of words of their
    domain that are incompatible with [w] at the shared overlap. *)
Definition conflict_count (c : Crossword) (d : Store) (var : Var)
    (a : Assignment) (w : string) : nat :=
  sum_list_with
    (λ n, length (filter (λ wn, compatible (overlaps c var n) w wn = false)
                         (default [] (d !! n))))
    (filter (λ n, dict_in n a = false) (neighbors c var)).

(** The opposite count: the words of those domains that are compatible
    with [w]. *)
Definition support_count (c : Crossword) (d : Store) (var : Var)
    (a : Assignment) (w : string) : nat :=
  sum_list_with
    (λ n, length (filter (λ wn, compatible (overlaps c var n) w wn = true)
                         (default [] (d !! n))))
    (filter (λ n, dict_in n a = false) (neighbors c var)).


(** ** Further examples *)

(** The store of [chain vocab1] once the search has succeeded: it is arc
    consistent. *)
Definition solved1 : Store :=
  list_to_map [(slotA, ["AB"]); (slotB, ["BXC"]); (slotC, ["CCCC"])].

(** ** Vocabulary of the further properties *)

(** Every binding of [a] is a binding of [a']. *)
Definition extends (a a' : Assignment) : Prop :=
  ∀ v w, dict_get v a = Some w → dict_get v a' = Some w.

(** Every word of every domain is a word of the vocabulary. *)
Definition within_vocabulary (c : Crossword) (d : Store) : Prop :=
  ∀ v dv w, d !! v = Some dv → w ∈ dv → w ∈ words c.

(** A model the solver can work on without a programming error: the
    neighbors of a variable are variables, and each has an overlap with it
    whose indices are inside the two slots. *)
Definition well_formed (c : Crossword) : Prop :=
  ∀ x y, x ∈ variables c → y ∈ neighbors c x →
    y ∈ variables c ∧
    ∃ ix iy, overlaps c x y = Some (ix, iy) ∧
             ix < var_length x ∧ iy < var_length y.

(** Every variable has a domain, of words of the length of its slot. *)
Definition node_consistent (c : Crossword) (d : Store) : Prop :=
  ∀ v, v ∈ variables c →
    ∃ dv, d !! v = Some dv ∧ ∀ w, w ∈ dv → String.length w = var_length v.

(** An assignment as [backtrack] builds them: no key twice, only variables
    of the model, each with a word of its length. *)
Definition fits (c : Crossword) (a : Assignment) : Prop :=
  NoDup a.*1 ∧
  ∀ v w, dict_get v a = Some w →
         v ∈ variables c ∧ String.length w = var_length v.

(** A solution of the puzzle: a word of the vocabulary for every variable,
    no word twice, every word of the length of its slot, every overlap
    respected. *)
Definition solution (c : Crossword) (s : Assignment) : Prop :=
  complete c s ∧ distinct_words s ∧ lengths_match s ∧ overlaps_satisfied c s ∧
  ∀ v w, v ∈ variables c → dict_get v s = Some w → w ∈ words c.

(** The store [d] still allows the assignment [s]: the word of every
    variable is in its domain. *)
Definition allows (c : Crossword) (d : Store) (s : Assignment) : Prop :=
  ∀ v, v ∈ variables c →
    ∃ dv w, d !! v = Some dv ∧ dict_get v s = Some w ∧ w ∈ dv.

(** Arcs from a variable of the model to one of its neighbors. *)
Definition proper_arcs (c : Crossword) (queue : list Arc) : Prop :=
  ∀ arc, arc ∈ queue → arc.1 ∈ variables c ∧ arc.2 ∈ neighbors c arc.1.

(** [letters[i][j]] as a partial function. *)
Definition grid_get (letters : Grid) (i j : nat) : option (option ascii) :=
  row ← letters !! i; row !! j.

(** A grid of [height] rows of [width] cells. *)
Definition has_shape (height width : nat) (letters : Grid) : Prop :=
  length letters = height ∧ ∀ row, row ∈ letters → length row = width.

(** Every letter of every word of [assignment] falls inside the grid. *)
Definition inside_grid (height width : nat) (assignment : Assignment) : Prop :=
  ∀ variable word k, (variable, word) ∈ assignment → k < String.length word →
    (cell_of variable k).1 < height ∧ (cell_of variable k).2 < width.

(** * Properties *)

(** ** Reasoning about outcomes *)

Lemma bind_Ok {A B} (m : outcome A) (k : A → outcome B) (r : B) :
  m ≫= k = Ok r → ∃ a, m = Ok a ∧ k a = Ok r.
Proof. destruct m; simpl; intros; [eauto | done | done]. Qed.

Lemma bind_not_OutOfFuel {A B} (m : outcome A) (k : A → outcome B) :
  m ≠ OutOfFuel → (∀ a, m = Ok a → k a ≠ OutOfFuel) → m ≫= k ≠ OutOfFuel.
Proof. destruct m; simpl; intros; [eauto | done | done]. Qed.

(** Split a hypothesis [x ← m; k = Ok r] into its two steps. *)
Tactic Notation "inv_bind" hyp(H) :=
  let a := fresh "a" in
  let Ha := fresh "E" in
  apply bind_Ok in H as (a & Ha & H).

Tactic Notation "inv_bind" hyp(H) "as" ident(a) ident(Ha) :=
  apply bind_Ok in H as (a & Ha & H).

Ltac inv_Ok H := injection H as H; try subst.

Lemma getitem_Ok (d : Store) x ws : getitem d x = Ok ws ↔ d !! x = Some ws.
Proof. unfold getitem. destruct (d !! x); split; congruence. Qed.

Lemma getitem_not_OutOfFuel (d : Store) x : getitem d x ≠ OutOfFuel.
Proof. unfold getitem. by destruct (d !! x). Qed.

Section Loops.
Context {A : Type}.
Implicit Types (p : A → outcome bool) (l r : list A).

Lemma filterM_elem p l r :
  filterM p l = Ok r → ∀ a, a ∈ r ↔ a ∈ l ∧ p a = Ok true.
Proof.
  revert r. induction l as [|x l IH]; intros r H a.
  - inv_Ok H. set_solver.
  - simpl in H. inv_bind H. inv_bind H. inv_Ok H.
    specialize (IH _ E0 a). destruct a0.
    + rewrite !elem_of_cons, IH. naive_solver.
    + rewrite elem_of_cons, IH. naive_solver congruence.
Qed.

Lemma filterM_defined p l r :
  filterM p l = Ok r → ∀ a, a ∈ l → ∃ b, p a = Ok b.
Proof.
  revert r. induction l as [|x l IH]; intros r H a Ha.
  - set_solver.
  - simpl in H. inv_bind H. inv_bind H.
    apply elem_of_cons in Ha as [->|Ha]; eauto.
Qed.

Lemma filterM_sublist p l r : filterM p l = Ok r → sublist r l.
Proof.
  revert r. induction l as [|x l IH]; intros r H.
  - by inv_Ok H.
  - simpl in H. inv_bind H. inv_bind H. inv_Ok H.
    destruct a; [apply sublist_skip | apply sublist_cons]; auto.
Qed.

Lemma filterM_total p l :
  (∀ a, a ∈ l → ∃ b, p a = Ok b) → ∃ r, filterM p l = Ok r.
Proof.
  induction l as [|x l IH]; intros H; simpl; [eauto|].
  destruct (H x) as [b ->]; [left|]. simpl.
  destruct IH as [r ->]; [intros; apply H; by right|]. simpl. eauto.
Qed.

Lemma filterM_not_OutOfFuel p l :
  (∀ a, p a ≠ OutOfFuel) → filterM p l ≠ OutOfFuel.
Proof.
  intros Hp. induction l as [|x l IH]; simpl; [done|].
  apply bind_not_OutOfFuel; [done|]. intros b _.
  apply bind_not_OutOfFuel; [done|]. done.
Qed.

Lemma foldM_not_OutOfFuel {S} (f : S → A → outcome S) s l :
  (∀ s a, f s a ≠ OutOfFuel) → foldM f s l ≠ OutOfFuel.
Proof.
  intros Hf. revert s. induction l as [|x l IH]; intros s; simpl; [done|].
  apply bind_not_OutOfFuel; auto.
Qed.
End Loops.

(** ** [revise] *)

Lemma overlap_eq_true overlap wordX wordY :
  overlap_eq overlap wordX wordY = Ok true ↔
  ∃ ix iy ch, overlap = Some (ix, iy) ∧
    String.get ix wordX = Some ch ∧ String.get iy wordY = Some ch.
Proof.
  unfold overlap_eq, subscript. split.
  - destruct overlap as [[ix iy]|]; [|done].
    destruct (String.get ix wordX) as [cx|] eqn:Hx; [|done].
    destruct (String.get iy wordY) as [cy|] eqn:Hy; [|done]. simpl.
    intros H. injection H as H. apply Ascii.eqb_eq in H as ->.
      by exists ix, iy, cy.
  - intros (ix & iy & ch & -> & -> & ->). simpl. by rewrite Ascii.eqb_refl.
Qed.

Lemma has_overlap_word_true d overlap y dy wordX :
  d !! y = Some dy →
  has_overlap_word d overlap y wordX = Ok true → supported overlap dy wordX.
Proof.
  intros Hy H. unfold has_overlap_word in H.
  inv_bind H as dy' Hy'. apply getitem_Ok in Hy'. simplify_eq.
  inv_bind H as ows Hows. inv_Ok H.
  destruct ows as [|wordY ows]; [done|].
  assert (Hin : wordY ∈ wordY :: ows) by left.
  apply (filterM_elem _ _ _ Hows) in Hin as [Hin Heq].
  apply overlap_eq_true in Heq as (ix & iy & ch & ? & ? & ?).
  exists wordY, ix, iy, ch. done.
Qed.

Lemma has_overlap_word_false d overlap y dy wordX :
  d !! y = Some dy →
  has_overlap_word d overlap y wordX = Ok false → ¬ supported overlap dy wordX.
Proof.
  intros Hy H (wordY & ix & iy & ch & Hin & Hov & Hx & Hy').
  unfold has_overlap_word in H.
  inv_bind H as dy' Hdy'. apply getitem_Ok in Hdy'. simplify_eq.
  inv_bind H as ows Hows. inv_Ok H.
  assert (wordY ∈ ows) as Hin'.
  { apply (filterM_elem _ _ _ Hows). split; [done|].
    apply overlap_eq_true. eauto 10. }
  destruct ows; [by apply not_elem_of_nil in Hin' | done].
Qed.

(** What [revise] does when it returns: the new domain of [x] is the old
    one filtered, every other domain is untouched, and the flag is
    [False]. *)
Lemma revise_Ok c x y d b d' :
  revise c x y d = Ok (b, d') →
  b = false ∧
  ∃ dx domain, d !! x = Some dx ∧
    filterM (has_overlap_word d (overlaps c x y) y) dx = Ok domain ∧
    d' = <[x := domain]> d.
Proof.
  unfold revise. intros H.
  inv_bind H as dx Hdx. apply getitem_Ok in Hdx.
  inv_bind H as domain Hdomain. inv_bind H as now Hnow.
  apply getitem_Ok in Hnow.
  rewrite lookup_insert_eq in Hnow. inv_Ok Hnow. inv_Ok H.
  rewrite Nat.eqb_refl. eauto 10.
Qed.

Lemma revise_returns_False c x y d b d' :
  revise c x y d = Ok (b, d') → b = false.
Proof. intros H. by apply revise_Ok in H as [? _]. Qed.

(** The removal half of [revise]: with both domains present, the words kept
    in the domain of [x] are exactly those with a supporting word in the
    domain of [y]. *)
Lemma revise_removes_unsupported c x y d b d' dx dy :
  revise c x y d = Ok (b, d') →
  d !! x = Some dx → d !! y = Some dy →
  ∃ domain, d' !! x = Some domain ∧ sublist domain dx ∧
    (∀ w, w ∈ domain ↔ w ∈ dx ∧ supported (overlaps c x y) dy w) ∧
    (∀ z, z ≠ x → d' !! z = d !! z).
Proof.
  intros H Hx Hy.
  apply revise_Ok in H as (_ & dx' & domain & Hx' & Hf & ->). simplify_eq.
  exists domain. rewrite lookup_insert_eq. split; [done|].
  split; [by eapply filterM_sublist|]. split.
  - intros w. rewrite (filterM_elem _ _ _ Hf w). split.
    + intros [? ?]. eauto using has_overlap_word_true.
    + intros [Hin Hs]. split; [done|].
      destruct (filterM_defined _ _ _ Hf w Hin) as [[] Hb]; [done|].
      by apply (has_overlap_word_false _ _ _ _ _ Hy) in Hb.
  - intros z Hz. by rewrite lookup_insert_ne.
Qed.

Lemma revise_not_OutOfFuel c x y d : revise c x y d ≠ OutOfFuel.
Proof.
  unfold revise.
  apply bind_not_OutOfFuel; [apply getitem_not_OutOfFuel|]. intros dx _.
  apply bind_not_OutOfFuel.
  - apply filterM_not_OutOfFuel. intros w. unfold has_overlap_word.
    apply bind_not_OutOfFuel; [apply getitem_not_OutOfFuel|]. intros dy _.
    apply bind_not_OutOfFuel; [|done].
    apply filterM_not_OutOfFuel. intros w'. unfold overlap_eq, subscript.
    destruct (overlaps c x y) as [[ix iy]|]; [|done].
    destruct (String.get ix w); [|done].
    by destruct (String.get iy w').
  - intros domain _.
    apply bind_not_OutOfFuel; [apply getitem_not_OutOfFuel|]. done.
Qed.

(** ** [ac3] *)

Lemma same_keys_refl d : same_keys d d.
Proof. by intros v. Qed.

Lemma same_keys_trans d1 d2 d3 :
  same_keys d1 d2 → same_keys d2 d3 → same_keys d1 d3.
Proof. intros H12 H23 v. etrans; [apply H23 | apply H12]. Qed.

Lemma same_keys_insert (d : Store) x ws :
  is_Some (d !! x) → same_keys d (<[x := ws]> d).
Proof.
  intros Hx v. destruct (decide (x = v)) as [->|Hne].
  - rewrite lookup_insert_eq. split; eauto.
  - by rewrite lookup_insert_ne.
Qed.

Lemma revise_same_keys c x y d b d' :
  revise c x y d = Ok (b, d') → same_keys d d'.
Proof.
  intros H. apply revise_Ok in H as (_ & dx & domain & Hx & _ & ->).
  apply same_keys_insert. eauto.
Qed.

Lemma revise_frame c x y d b d' z :
  revise c x y d = Ok (b, d') → z ≠ x → d' !! z = d !! z.
Proof.
  intros H Hz. apply revise_Ok in H as (_ & dx & domain & _ & _ & ->).
  by rewrite lookup_insert_ne.
Qed.

(** A turn of the loop never takes the branch guarded by [revise]: the
    queue is left as it is. *)
Lemma ac3_body_Ok c x y queue d step :
  ac3_body c x y queue d = Ok step →
  ∃ d', step = Continue queue d' ∧ revise c x y d = Ok (false, d').
Proof.
  unfold ac3_body. intros H. inv_bind H as r Hr. destruct r as [b d'].
  pose proof (revise_returns_False _ _ _ _ _ _ Hr) as ->.
  inv_Ok H. eauto.
Qed.

Lemma ac3_loop_cons c fuel x y rest d :
  ac3_loop c (S fuel) ((x, y) :: rest) d =
  '(_, d') ← revise c x y d; ac3_loop c fuel rest d'.
Proof.
  simpl. unfold ac3_body.
  destruct (revise c x y d) as [[b d']| |] eqn:Hr; simpl; [|done..].
  by rewrite (revise_returns_False _ _ _ _ _ _ Hr).
Qed.

(** The loop needs one unit of fuel for each arc of the initial queue, and
    more fuel does not change its result. *)
Lemma ac3_loop_fuel c fuel queue d :
  length queue ≤ fuel →
  ac3_loop c fuel queue d = ac3_loop c (length queue) queue d.
Proof.
  revert fuel d. induction queue as [|[x y] rest IH]; intros fuel d Hle.
  - by destruct fuel.
  - destruct fuel as [|fuel]; simpl in Hle; [lia|].
    cbn [length]. rewrite !ac3_loop_cons.
    destruct (revise c x y d) as [[b d']| |]; simpl; [|done..].
    apply IH. lia.
Qed.

Lemma ac3_loop_not_OutOfFuel c fuel queue d :
  length queue ≤ fuel → ac3_loop c fuel queue d ≠ OutOfFuel.
Proof.
  revert fuel d. induction queue as [|[x y] rest IH]; intros fuel d Hle.
  - by destruct fuel.
  - destruct fuel as [|fuel]; simpl in Hle; [lia|].
    rewrite ac3_loop_cons.
    apply bind_not_OutOfFuel; [apply revise_not_OutOfFuel|].
    intros [b d'] _. apply IH. lia.
Qed.

Lemma ac3_not_OutOfFuel c arcs d : ac3 c arcs d ≠ OutOfFuel.
Proof. unfold ac3. by apply ac3_loop_not_OutOfFuel. Qed.

(** What a run of the loop that returns has done: it reports [True], keeps
    the keys of the store, and leaves alone every variable that is not the
    first end of a queued arc. *)
Lemma ac3_loop_Ok c fuel queue d b d' :
  ac3_loop c fuel queue d = Ok (b, d') →
  b = true ∧ same_keys d d' ∧
  (∀ z, z ∉ queue.*1 → d' !! z = d !! z).
Proof.
  revert fuel d. induction queue as [|[x y] rest IH]; intros fuel d H.
  - destruct fuel; inv_Ok H; by split_and!.
  - destruct fuel as [|fuel]; [done|].
    rewrite ac3_loop_cons in H. inv_bind H as r Hr. destruct r as [b0 d0].
    apply IH in H as (-> & Hk & Hfr). split_and!; [done|..].
    + eapply same_keys_trans; [|done]. by eapply revise_same_keys.
    + intros z Hz. rewrite fmap_cons, not_elem_of_cons in Hz.
      destruct Hz as [Hzx Hz]. rewrite Hfr by done.
      by eapply revise_frame.
Qed.

Lemma ac3_returns_True c arcs d b d' : ac3 c arcs d = Ok (b, d') → b = true.
Proof. intros H. by apply ac3_loop_Ok in H as [? _]. Qed.

Lemma ac3_same_keys c arcs d b d' : ac3 c arcs d = Ok (b, d') → same_keys d d'.
Proof. intros H. by apply ac3_loop_Ok in H as (_ & ? & _). Qed.

(** The pass [backtrack] runs, on the arcs leaving [x], touches the domain
    of [x] only. *)
Lemma ac3_arcs_from_frame c x ns d b d' z :
  ac3 c (Some (map (pair x) ns)) d = Ok (b, d') → z ≠ x → d' !! z = d !! z.
Proof.
  intros H Hz. apply ac3_loop_Ok in H as (_ & _ & Hfr). apply Hfr.
  simpl. rewrite <- list_fmap_compose.
  intros Hin. apply list_elem_of_fmap in Hin as (n & -> & _). done.
Qed.

(** ** Node consistency *)

Lemma foldM_invariant {A S} (P : S → Prop) (f : S → A → outcome S) s l s' :
  P s → (∀ s a s', P s → a ∈ l → f s a = Ok s' → P s') →
  foldM f s l = Ok s' → P s'.
Proof.
  revert s. induction l as [|x l IH]; intros s Hs Hf H.
  - by inv_Ok H.
  - simpl in H. inv_bind H as s1 Hs1.
    eapply (IH s1); [| |done].
    + eapply Hf; [done| |done]. left.
    + intros ? a ? ? ?. eapply Hf; [done|]. by right.
Qed.

Lemma enforce_node_consistency_same_keys c d d' :
  enforce_node_consistency c d = Ok d' → same_keys d d'.
Proof.
  unfold enforce_node_consistency.
  apply (foldM_invariant (same_keys d)); [apply same_keys_refl|].
  intros nd var nd' Hnd _ H. inv_bind H as ws Hws.
  revert H. apply foldM_invariant; [done|].
  intros nd1 word nd2 Hnd1 _ H. case_bool_decide; [|by inv_Ok H].
  inv_bind H as cur Hcur. inv_Ok H. apply getitem_Ok in Hcur.
  eapply same_keys_trans; [done|]. apply same_keys_insert. eauto.
Qed.

Lemma init_domains_lookup c v :
  v ∈ variables c → init_domains c !! v = Some (words c).
Proof.
  unfold init_domains. generalize (∅ : Store).
  induction (variables c) as [|x l IH]; intros d Hin; simpl.
  - by apply not_elem_of_nil in Hin.
  - destruct (decide (v ∈ l)) as [Hl|Hl]; [by apply IH|].
    apply elem_of_cons in Hin as [->|?]; [|done].
    clear IH. revert d. induction l as [|y l IH]; intros d; simpl.
    + by rewrite lookup_insert_eq.
    + rewrite not_elem_of_cons in Hl. destruct Hl as [Hne Hl].
      rewrite insert_insert_ne by done. by apply IH.
Qed.

(** ** Dictionaries *)

Section DictFacts.
Context {K V : Type} {eqK : EqDecision K}.
Implicit Types (m : list (K * V)) (k : K) (v : V).

Lemma dict_get_elem k v m : dict_get k m = Some v → (k, v) ∈ m.
Proof.
  induction m as [|[k' v'] m IH]; simpl; [done|].
  case_decide; intros Hg; simplify_eq; [left | right; auto].
Qed.

Lemma dict_get_is_Some k m : is_Some (dict_get k m) ↔ k ∈ m.*1.
Proof.
  induction m as [|[k' v'] m IH]; simpl.
  - split; [by intros [? ?] | by intros ?%not_elem_of_nil].
  - rewrite elem_of_cons. case_decide; simplify_eq/=.
    + split; eauto.
    + rewrite IH. naive_solver.
Qed.

Lemma dict_in_true k m : dict_in k m = true ↔ is_Some (dict_get k m).
Proof. unfold dict_in. by rewrite bool_decide_eq_true, dict_get_is_Some. Qed.

Lemma dict_in_false k m : dict_in k m = false ↔ dict_get k m = None.
Proof.
  rewrite <- not_true_iff_false, dict_in_true, <- eq_None_not_Some. done.
Qed.

Lemma dict_getitem_Ok m k v : dict_getitem m k = Ok v ↔ dict_get k m = Some v.
Proof. unfold dict_getitem. destruct (dict_get k m); split; congruence. Qed.

Lemma dict_get_set k k' v m :
  dict_get k (dict_set k' v m) = if decide (k' = k) then Some v else dict_get k m.
Proof.
  induction m as [|[k0 v0] m IH]; simpl.
  - done.
  - destruct (decide (k0 = k')) as [->|Hne]; simpl.
    + by destruct (decide (k' = k)).
    + destruct (decide (k0 = k)) as [->|?]; [|done].
      by destruct (decide (k' = k)); simplify_eq.
Qed.

Lemma dict_set_keys k v m k' :
  k' ∈ (dict_set k v m).*1 ↔ k' = k ∨ k' ∈ m.*1.
Proof.
  rewrite <- !dict_get_is_Some, dict_get_set.
  case_decide; subst; [split; eauto | ].
  split; [auto | intros [?|?]; done].
Qed.

Lemma dict_set_elem k v m p :
  p ∈ dict_set k v m → p = (k, v) ∨ p ∈ m.
Proof.
  induction m as [|[k0 v0] m IH]; simpl.
  - intros ?%list_elem_of_singleton. auto.
  - case_decide; subst; rewrite !elem_of_cons; naive_solver.
Qed.
End DictFacts.

(** ** Complete and consistent assignments *)

Lemma assignment_complete_true c a :
  assignment_complete c a = true ↔ complete c a.
Proof.
  unfold assignment_complete, complete.
  rewrite forallb_forall. setoid_rewrite <- list_elem_of_In.
  by setoid_rewrite dict_in_true.
Qed.

Lemma remove_dups_length_le {A} {eqA : EqDecision A} (l : list A) :
  length (remove_dups l) ≤ length l.
Proof. induction l; simpl; [done|]. case_decide; simpl; lia. Qed.

Lemma remove_dups_length_NoDup {A} {eqA : EqDecision A} (l : list A) :
  length (remove_dups l) = length l → NoDup l.
Proof.
  induction l as [|x l IH]; simpl; [constructor|].
  pose proof (remove_dups_length_le l).
  case_decide; simpl; intros Hlen; [lia|].
  constructor; [done|]. apply IH. lia.
Qed.

Lemma repeated_value_false a : repeated_value a = false → NoDup a.*2.
Proof.
  unfold repeated_value. rewrite negb_false_iff, Nat.eqb_eq.
  intros H. by apply remove_dups_length_NoDup.
Qed.

Lemma NoDup_values_distinct (a : Assignment) : NoDup a.*2 → distinct_words a.
Proof.
  unfold distinct_words.
  induction a as [|[k v] a IH]; simpl; [done|].
  intros Hnd x y wx wy Hxy Hx Hy. apply NoDup_cons in Hnd as [Hv Hnd].
  destruct (decide (k = x)) as [<-|?], (decide (k = y)) as [<-|?];
    simplify_eq.
  - intros ->. apply Hv. apply dict_get_elem in Hy.
    apply list_elem_of_fmap. by exists (y, wy).
  - intros ->. apply Hv. apply dict_get_elem in Hx.
    apply list_elem_of_fmap. by exists (x, wy).
  - by apply (IH Hnd x y).
Qed.

Lemma consistent_neighbors_true c a var ns :
  consistent_neighbors c a var ns = Ok true →
  ∀ y ix iy, y ∈ ns → overlaps c var y = Some (ix, iy) →
  ∃ wx wy ch, dict_get var a = Some wx ∧ dict_get y a = Some wy ∧
    String.get ix wx = Some ch ∧ String.get iy wy = Some ch.
Proof.
  induction ns as [|n ns IH]; intros H y ix iy Hin Hov.
  - by apply not_elem_of_nil in Hin.
  - simpl in H. inv_bind H as wn Hwn. apply dict_getitem_Ok in Hwn.
    apply elem_of_cons in Hin as [->|Hin].
    + rewrite Hov in H. inv_bind H as wv Hwv. apply dict_getitem_Ok in Hwv.
      inv_bind H as cv Hcv. inv_bind H as cn Hcn.
      unfold subscript in Hcv, Hcn.
      destruct (String.get ix wv) eqn:Hgx; [|done].
      destruct (String.get iy wn) eqn:Hgy; [|done].
      simplify_eq. destruct (Ascii.eqb cv cn) eqn:Heq; [|done].
      apply Ascii.eqb_eq in Heq as ->. by exists wv, wn, cn.
    + destruct (overlaps c var n) as [[jx jy]|]; [|by eapply IH].
      inv_bind H as wv Hwv. inv_bind H as cv Hcv. inv_bind H as cn Hcn.
      destruct (negb (Ascii.eqb cv cn)); [done|]. by eapply IH.
Qed.

Lemma consistent_loop_true c a vars :
  consistent_loop c a vars = Ok true →
  ∀ var, var ∈ vars →
    repeated_value a = false ∧
    (∃ w, dict_get var a = Some w ∧ var_length var = String.length w) ∧
    consistent_neighbors c a var (neighbors c var) = Ok true.
Proof.
  induction vars as [|v vars IH]; intros H var Hin.
  - by apply not_elem_of_nil in Hin.
  - simpl in H. destruct (repeated_value a) eqn:Hrep; [done|].
    inv_bind H as w Hw. apply dict_getitem_Ok in Hw.
    case_bool_decide as Hlen; [done|].
    inv_bind H as ok Hok. destruct ok; [|done].
    apply elem_of_cons in Hin as [->|Hin]; [eauto | by apply IH].
Qed.

(** What the answer [True] of [consistent] guarantees. *)
Lemma consistent_true c a :
  consistent c a = Ok true →
  distinct_words a ∧ lengths_match a ∧ overlaps_satisfied c a.
Proof.
  intros H. pose proof (consistent_loop_true _ _ _ H) as Hall. split_and!.
  - destruct a as [|[k v] a']; [done|].
    apply NoDup_values_distinct, repeated_value_false.
    apply (Hall k). left.
  - intros v w Hv.
    destruct (Hall v) as (_ & (w' & Hw' & Hlen) & _).
    { apply dict_get_is_Some. eauto. }
    by simplify_eq.
  - intros x y wx ix iy Hx Hy Hov.
    destruct (Hall x) as (_ & _ & Hn).
    { apply dict_get_is_Some. eauto. }
    destruct (consistent_neighbors_true _ _ _ _ Hn y ix iy Hy Hov)
      as (wx' & wy & ch & ? & ? & ? & ?).
    simplify_eq. eauto.
Qed.

(** ** [backtrack]: what a returned assignment satisfies *)

Lemma try_values_Some c (rec : Search) (P : Assignment → Prop)
    a selectedVar values st r st' :
  (∀ a0 st0 r0 st1, rec a0 st0 = Ok (Some r0, st1) → P r0) →
  try_values c rec a selectedVar values st = Ok (Some r, st') → P r.
Proof.
  intros Hrec. revert st.
  induction values as [|value values IH]; intros st H; [done|].
  simpl in H. inv_bind H as res Hres. destruct res as [[r0|] st0].
  - inv_Ok H. unfold try_value in Hres.
    inv_bind Hres as p Hp. destruct p as [b d']. eauto.
  - eauto.
Qed.

Lemma backtrack_Some c rnd fuel a st r st' :
  backtrack c rnd fuel a st = Ok (Some r, st') →
  assignment_complete c r = true ∧ consistent c r = Ok true.
Proof.
  revert a st r st'.
  induction fuel as [|fuel IH]; intros a st r st' H; [done|].
  simpl in H. destruct (assignment_complete c a) eqn:Hc.
  - inv_bind H as ok Hok. destruct ok; [|done]. by inv_Ok H.
  - inv_bind H as sel Hsel. destruct sel as [selectedVar k].
    inv_bind H as savedDomain Hsaved. inv_bind H as values Hvalues.
    inv_bind H as res Hres. destruct res as [[r0|] st0]; [|done].
    inv_Ok H. revert Hres.
    apply (try_values_Some _ _
             (λ r, assignment_complete c r = true ∧ consistent c r = Ok true)).
    eauto.
Qed.

(** ** [backtrack]: the Domain Store after a failure *)

Section Restore.
Variable c : Crossword.
Variable rec : Search.
Hypothesis rec_restores :
  ∀ a st st', rec a st = Ok (None, st') → domains st' = domains st.

Lemma try_value_frame a selectedVar value st st' z :
  try_value c rec a selectedVar value st = Ok (None, st') →
  z ≠ selectedVar → domains st' !! z = domains st !! z.
Proof.
  unfold try_value. intros H Hz. inv_bind H as p Hp. destruct p as [b d'].
  apply rec_restores in H. rewrite H. simpl.
  by eapply ac3_arcs_from_frame.
Qed.

Lemma try_values_frame a selectedVar values st st' z :
  try_values c rec a selectedVar values st = Ok (None, st') →
  z ≠ selectedVar → domains st' !! z = domains st !! z.
Proof.
  intros H Hz. revert st H.
  induction values as [|value values IH]; intros st H.
  - by inv_Ok H.
  - simpl in H. inv_bind H as res Hres. destruct res as [[r0|] st0]; [done|].
    rewrite (IH _ H). by eapply try_value_frame.
Qed.
End Restore.

Lemma backtrack_None_restores c rnd fuel a st st' :
  backtrack c rnd fuel a st = Ok (None, st') → domains st' = domains st.
Proof.
  revert a st st'. induction fuel as [|fuel IH]; intros a st st' H; [done|].
  simpl in H. destruct (assignment_complete c a).
  - inv_bind H as ok Hok. destruct ok; [done|]. by inv_Ok H.
  - inv_bind H as sel Hsel. destruct sel as [selectedVar k].
    inv_bind H as savedDomain Hsaved. apply getitem_Ok in Hsaved.
    inv_bind H as values Hvalues.
    inv_bind H as res Hres. destruct res as [[r0|] st0]; [done|].
    inv_Ok H. simpl. apply map_eq. intros z.
    destruct (decide (z = selectedVar)) as [->|Hz].
    + by rewrite lookup_insert_eq.
    + rewrite lookup_insert_ne by done.
      by rewrite (try_values_frame _ _ IH _ _ _ _ _ z Hres Hz).
Qed.

(** ** [select_unassigned_variable] *)

Lemma py_min_Ok l n : py_min l = Ok n → n ∈ l ∧ ∀ x, x ∈ l → n ≤ x.
Proof.
  destruct l as [|n0 l]; [done|]. simpl. intros H. inv_Ok H.
  revert n0. induction l as [|y l IH]; intros n0; simpl.
  - split; [left|]. by intros x ->%list_elem_of_singleton.
  - destruct (IH (n0 `min` y)) as [Hin Hle]. split.
    + apply elem_of_cons in Hin as [Heq|Hin]; [|by do 2 right].
      rewrite Heq. destruct (Nat.min_spec n0 y) as [[_ ->]|[_ ->]];
        [left | right; left].
    + intros x Hx. assert (n0 `min` y ≤ x ∨ x ∈ l) as [?|?].
      { rewrite !elem_of_cons in Hx. destruct Hx as [->|[->|?]]; [left|left|by right]; lia. }
      * etrans; [|done]. apply Hle. left.
      * apply Hle. by right.
Qed.

Lemma py_min_total l : l ≠ [] → ∃ n, py_min l = Ok n.
Proof. destruct l; [done|]. simpl. eauto. Qed.

Lemma with_min_value_Ok m vars r :
  with_min_value m vars = Ok r →
  sublist r vars ∧
  ∀ v, v ∈ r ↔
    v ∈ vars ∧ ∃ n, dict_get v m = Some n ∧ n ∈ m.*2 ∧ ∀ x, x ∈ m.*2 → n ≤ x.
Proof.
  unfold with_min_value. intros H. split; [by eapply filterM_sublist|].
  intros v. rewrite (filterM_elem _ _ _ H v).
  apply and_iff_compat_l. split.
  - intros Hv. inv_bind Hv as n Hn. apply dict_getitem_Ok in Hn.
    inv_bind Hv as least Hleast. inv_Ok Hv. apply Nat.eqb_eq in Hv as ->.
    apply py_min_Ok in Hleast as [? ?]. eauto.
  - intros (n & Hn & Hin & Hle). apply dict_getitem_Ok in Hn. rewrite Hn. simpl.
    destruct (py_min_total m.*2) as [least Hleast].
    { intros Hnil. rewrite Hnil in Hin. by apply not_elem_of_nil in Hin. }
    rewrite Hleast. simpl. apply py_min_Ok in Hleast as [Hl1 Hl2].
    f_equal. apply Nat.eqb_eq. apply Nat.le_antisymm; auto.
Qed.

Lemma with_min_value_total m vars :
  (∀ v, v ∈ vars → is_Some (dict_get v m)) →
  ∃ r, with_min_value m vars = Ok r.
Proof.
  intros Hv. apply filterM_total. intros v [n Hn]%Hv.
  destruct (py_min_total m.*2) as [least Hleast].
  { destruct m; [done|]. by simpl. }
  apply dict_getitem_Ok in Hn. rewrite Hn. simpl. rewrite Hleast. simpl. eauto.
Qed.

Lemma graph_of_get g m v : graph_of g m → v ∈ m.*1 → dict_get v m = Some (g v).
Proof.
  intros Hg [n Hn]%dict_get_is_Some. rewrite Hn.
  apply dict_get_elem in Hn. by rewrite (Hg _ _ Hn).
Qed.

Lemma graph_of_set g m v : graph_of g m → graph_of g (dict_set v (g v) m).
Proof.
  intros Hg v' n [Heq|Hin]%dict_set_elem; [by simplify_eq | by apply Hg].
Qed.

(** In the graph of [g] over exactly the keys [vars], the least value is
    reached: [with_min_value] keeps the keys where [g] is least, and at
    least one of them. *)
Lemma with_min_value_graph g m vars r :
  graph_of g m → (∀ v, v ∈ m.*1 ↔ v ∈ vars) →
  with_min_value m vars = Ok r →
  (∀ v, v ∈ r ↔ v ∈ vars ∧ ∀ v', v' ∈ vars → g v ≤ g v') ∧
  (vars ≠ [] → r ≠ []).
Proof.
  intros Hg Hkeys H. apply with_min_value_Ok in H as [_ Hr].
  assert (Hval : ∀ x, x ∈ m.*2 ↔ ∃ v, v ∈ vars ∧ x = g v).
  { intros x. rewrite list_elem_of_fmap. split.
    - intros ([v n] & -> & Hin). exists v. split; [|by apply Hg].
      apply Hkeys, list_elem_of_fmap. by exists (v, n).
    - intros (v & Hv & ->). apply Hkeys in Hv.
      exists (v, g v). split; [done|].
      apply dict_get_elem. by apply graph_of_get. }
  assert (Hchar : ∀ v, v ∈ r ↔ v ∈ vars ∧ ∀ v', v' ∈ vars → g v ≤ g v').
  { intros v. rewrite Hr. split.
    - intros (Hv & n & Hn & _ & Hle). split; [done|]. intros v' Hv'.
      rewrite (graph_of_get g m v) in Hn by (done || by apply Hkeys).
      simplify_eq. apply Hle, Hval. eauto.
    - intros [Hv Hle]. split; [done|]. exists (g v).
      rewrite (graph_of_get g m v) by (done || by apply Hkeys).
      split_and!; [done|apply Hval; eauto|].
      intros x (v' & Hv' & ->)%Hval. auto. }
  split; [done|]. intros Hne.
  destruct vars as [|v0 vars']; [done|].
  destruct (py_min_total m.*2) as [least Hleast].
  { intros Hnil. assert (g v0 ∈ m.*2) as Hin by (apply Hval; exists v0; split; [left|done]).
    rewrite Hnil in Hin. by apply not_elem_of_nil in Hin. }
  apply py_min_Ok in Hleast as [(v & Hv & ->)%Hval Hle].
  assert (v ∈ r) as Hin.
  { apply Hchar. split; [done|]. intros v' Hv'. apply Hle, Hval. eauto. }
  intros ->. by apply not_elem_of_nil in Hin.
Qed.

Lemma untreated_Ok c a d m :
  untreated c a d = Ok m →
  graph_of (domain_size d) m ∧
  (∀ v, v ∈ m.*1 ↔ unassigned c a v) ∧
  (∀ v, v ∈ m.*1 → is_Some (d !! v)).
Proof.
  unfold untreated, unassigned.
  assert (Hgen : ∀ l m0,
    foldM (λ m var,
             if dict_in var a then Ok m
             else ws ← getitem d var; Ok (dict_set var (length ws) m))
          m0 l = Ok m →
    (graph_of (domain_size d) m0 → graph_of (domain_size d) m) ∧
    (∀ v, v ∈ m.*1 ↔ v ∈ m0.*1 ∨ (v ∈ l ∧ dict_in v a = false)) ∧
    ((∀ v, v ∈ m0.*1 → is_Some (d !! v)) → ∀ v, v ∈ m.*1 → is_Some (d !! v))).
  { induction l as [|x l IH]; intros m0 H.
    - inv_Ok H. split_and!; [done| |done].
      intros v. rewrite elem_of_nil. naive_solver.
    - simpl in H. inv_bind H as m1 Hm1.
      destruct (IH _ H) as (IHg & IHk & IHd). clear IH H.
      destruct (dict_in x a) eqn:Hx.
      + inv_Ok Hm1. split_and!; [done| |done].
        intros v. rewrite IHk, elem_of_cons. naive_solver congruence.
      + inv_bind Hm1 as ws Hws. inv_Ok Hm1. apply getitem_Ok in Hws.
        assert (Hsz : length ws = domain_size d x).
        { unfold domain_size. by rewrite Hws. }
        rewrite Hsz in *. split_and!.
        * intros Hg. by apply IHg, graph_of_set.
        * intros v. rewrite IHk, dict_set_keys, elem_of_cons. naive_solver.
        * intros Hd. apply IHd. intros v [->|?]%dict_set_keys; eauto. }
  intros H. destruct (Hgen _ _ H) as (Hg & Hk & Hd). split_and!.
  - apply Hg. by intros v n ?%not_elem_of_nil.
  - intros v. rewrite Hk. simpl. rewrite elem_of_nil. naive_solver.
  - apply Hd. by intros v ?%not_elem_of_nil.
Qed.

Lemma untreated_total c a d :
  (∀ v, v ∈ variables c → is_Some (d !! v)) → ∃ m, untreated c a d = Ok m.
Proof.
  unfold untreated. generalize (@nil (Var * nat)).
  induction (variables c) as [|x l IH]; intros m0 Hd; simpl; [eauto|].
  destruct (dict_in x a).
  - simpl. apply IH. intros. apply Hd. by right.
  - destruct (Hd x) as [ws Hws]; [left|].
    apply getitem_Ok in Hws. rewrite Hws. simpl.
    apply IH. intros. apply Hd. by right.
Qed.

Lemma degrees_graph c vars :
  graph_of (degree c) (degrees c vars) ∧
  ∀ v, v ∈ (degrees c vars).*1 ↔ v ∈ vars.
Proof.
  unfold degrees.
  assert (Hgen : ∀ l m0,
    let m := foldl (λ m var, dict_set var (length (neighbors c var)) m) m0 l in
    (graph_of (degree c) m0 → graph_of (degree c) m) ∧
    (∀ v, v ∈ m.*1 ↔ v ∈ m0.*1 ∨ v ∈ l)).
  { induction l as [|x l IH]; intros m0; simpl.
    - split; [done|]. intros v. rewrite elem_of_nil. naive_solver.
    - destruct (IH (dict_set x (length (neighbors c x)) m0)) as [IHg IHk].
      split.
      + intros Hg. by apply IHg, (graph_of_set (degree c)).
      + intros v. rewrite IHk, dict_set_keys, elem_of_cons. naive_solver. }
  destruct (Hgen vars []) as [Hg Hk]. split.
  - apply Hg. by intros v n ?%not_elem_of_nil.
  - intros v. rewrite Hk. simpl. rewrite elem_of_nil. naive_solver.
Qed.

Lemma first_Ok {A} (l : list A) x : first l = Ok x → x ∈ l.
Proof. destruct l; [done|]. intros H. inv_Ok H. left. Qed.

Lemma random_choice_Ok {A} rnd k (l : list A) x k' :
  random_choice rnd k l = Ok (x, k') → x ∈ l ∧ k' = S k.
Proof.
  unfold random_choice. destruct (l !! _) eqn:Hl; [|done].
  intros H. inv_Ok H. split; [|done]. by eapply list_elem_of_lookup_2.
Qed.

Lemma random_choice_total {A} rnd k (l : list A) :
  l ≠ [] → ∃ x, random_choice rnd k l = Ok (x, S k).
Proof.
  intros Hl. unfold random_choice.
  destruct (lookup_lt_is_Some_2 l (rnd k mod length l)) as [x ->]; [|eauto].
  apply Nat.mod_upper_bound. by destruct l.
Qed.

(** What [select_unassigned_variable] returns: a variable without a word,
    of least domain size among those, and of least degree among those of
    least domain size. *)
Lemma select_unassigned_variable_Ok c rnd a d k var k' :
  select_unassigned_variable c rnd a d k = Ok (var, k') →
  unassigned c a var ∧ is_Some (d !! var) ∧
  (∀ v, unassigned c a v → domain_size d var ≤ domain_size d v) ∧
  (∀ v, unassigned c a v → domain_size d v = domain_size d var →
        degree c var ≤ degree c v).
Proof.
  unfold select_unassigned_variable. intros H.
  inv_bind H as m Hm. apply untreated_Ok in Hm as (Hg & Hk & Hd).
  inv_bind H as r1 Hr1.
  pose proof (with_min_value_Ok _ _ _ Hr1) as [Hsub1 _].
  apply (with_min_value_graph _ _ _ _ Hg) in Hr1 as [Hr1 _]; [|done].
  destruct (length m =? 1) eqn:Hlen.
  - inv_bind H as var' Hvar. inv_Ok H. apply first_Ok, Hr1 in Hvar as [Hin Hmin].
    split_and!; [by apply Hk | by apply Hd | |].
    + intros v Hv. by apply Hmin, Hk.
    + intros v Hv%Hk _. apply Nat.eqb_eq in Hlen.
      destruct m as [|p1 [|p2 m']]; simplify_eq/=.
      apply list_elem_of_singleton in Hin, Hv. by subst.
  - inv_bind H as r2 Hr2. apply random_choice_Ok in H as [Hin _].
    destruct (degrees_graph c r1) as [Hdg Hdk].
    apply (with_min_value_graph _ _ _ _ Hdg) in Hr2 as [Hr2 _]; [|done].
    apply Hr2 in Hin as [[Hin1 Hmin]%Hr1 Hdeg].
    split_and!; [by apply Hk | by apply Hd | |].
    + intros v Hv. by apply Hmin, Hk.
    + intros v Hv%Hk Heq. apply Hdeg, Hr1. split; [done|].
      intros v' Hv'. rewrite Heq. auto.
Qed.

Lemma select_unassigned_variable_total c rnd a d k :
  (∀ v, v ∈ variables c → is_Some (d !! v)) →
  assignment_complete c a = false →
  ∃ var k', select_unassigned_variable c rnd a d k = Ok (var, k').
Proof.
  intros Hd Hc. unfold select_unassigned_variable.
  destruct (untreated_total c a d Hd) as [m Hm]. rewrite Hm. simpl.
  apply untreated_Ok in Hm as (Hg & Hk & _).
  assert (Hne : m.*1 ≠ []).
  { unfold assignment_complete in Hc.
    apply not_true_iff_false in Hc. rewrite forallb_forall in Hc.
    intros Hnil. apply Hc. intros v Hv%list_elem_of_In.
    destruct (dict_in v a) eqn:Hva; [done|].
    assert (v ∈ m.*1) as Hin by by apply Hk.
    rewrite Hnil in Hin. by apply not_elem_of_nil in Hin. }
  destruct (with_min_value_total m m.*1) as [r1 Hr1].
  { intros v. by rewrite dict_get_is_Some. }
  rewrite Hr1. simpl.
  apply (with_min_value_graph _ _ _ _ Hg) in Hr1 as [_ Hr1]; [|done].
  specialize (Hr1 Hne).
  destruct (length m =? 1).
  - destruct r1 as [|v r1]; [done|]. simpl. eauto.
  - destruct (degrees_graph c r1) as [Hdg Hdk].
    destruct (with_min_value_total (degrees c r1) r1) as [r2 Hr2].
    { intros v Hv. by apply dict_get_is_Some, Hdk. }
    rewrite Hr2. simpl.
    apply (with_min_value_graph _ _ _ _ Hdg) in Hr2 as [_ Hr2]; [|done].
    destruct (random_choice_total rnd k r2 (Hr2 Hr1)) as [x Hx]. eauto.
Qed.

(** ** Termination: the fuel is enough *)

Lemma dict_getitem_not_OutOfFuel {K V} {eqK : EqDecision K}
    (m : list (K * V)) k : dict_getitem m k ≠ OutOfFuel.
Proof. unfold dict_getitem. by destruct (dict_get k m). Qed.

Lemma subscript_not_OutOfFuel w k : subscript w k ≠ OutOfFuel.
Proof. unfold subscript. by destruct (String.get k w). Qed.

Lemma py_min_not_OutOfFuel l : py_min l ≠ OutOfFuel.
Proof. by destruct l. Qed.

(** Reduce a goal [m ≠ OutOfFuel] along the binds and loops of [m]. *)
Ltac no_fuel :=
  repeat first
    [ done
    | apply getitem_not_OutOfFuel
    | apply dict_getitem_not_OutOfFuel
    | apply subscript_not_OutOfFuel
    | apply py_min_not_OutOfFuel
    | apply revise_not_OutOfFuel
    | apply ac3_not_OutOfFuel
    | apply bind_not_OutOfFuel; [|intros ? _]
    | apply filterM_not_OutOfFuel; intros ?
    | apply foldM_not_OutOfFuel; intros ? ?
    | match goal with
      | |- context [match ?x with _ => _ end] => destruct x
      end ].

Lemma overlap_eq_not_OutOfFuel overlap wx wy :
  overlap_eq overlap wx wy ≠ OutOfFuel.
Proof. unfold overlap_eq. no_fuel. Qed.

Lemma enforce_node_consistency_not_OutOfFuel c d :
  enforce_node_consistency c d ≠ OutOfFuel.
Proof. unfold enforce_node_consistency. no_fuel. Qed.

Lemma consistent_not_OutOfFuel c a : consistent c a ≠ OutOfFuel.
Proof.
  unfold consistent. induction a.*1 as [|var vars IH]; simpl; [done|].
  destruct (repeated_value a); [done|].
  apply bind_not_OutOfFuel; [apply dict_getitem_not_OutOfFuel|]. intros w _.
  case_bool_decide; [done|].
  apply bind_not_OutOfFuel; [|by intros [] _].
  induction (neighbors c var) as [|n ns IHn]; simpl; [done|].
  apply bind_not_OutOfFuel; [apply dict_getitem_not_OutOfFuel|]. intros wn _.
  destruct (overlaps c var n) as [[ix iy]|]; [|done].
  apply bind_not_OutOfFuel; [apply dict_getitem_not_OutOfFuel|]. intros wv _.
  apply bind_not_OutOfFuel; [apply subscript_not_OutOfFuel|]. intros cv _.
  apply bind_not_OutOfFuel; [apply subscript_not_OutOfFuel|]. intros cn _.
  by destruct (negb _).
Qed.

Lemma order_domain_values_not_OutOfFuel c d var a :
  order_domain_values c d var a ≠ OutOfFuel.
Proof.
  unfold order_domain_values, count_for.
  no_fuel; apply overlap_eq_not_OutOfFuel.
Qed.

Lemma with_min_value_not_OutOfFuel m vars : with_min_value m vars ≠ OutOfFuel.
Proof. unfold with_min_value. no_fuel. Qed.

Lemma select_unassigned_variable_not_OutOfFuel c rnd a d k :
  select_unassigned_variable c rnd a d k ≠ OutOfFuel.
Proof.
  unfold select_unassigned_variable, untreated, first, random_choice.
  apply bind_not_OutOfFuel; [no_fuel|]. intros m _.
  apply bind_not_OutOfFuel; [apply with_min_value_not_OutOfFuel|]. intros r1 _.
  destruct (length m =? 1); [no_fuel|].
  apply bind_not_OutOfFuel; [apply with_min_value_not_OutOfFuel|]. intros r2 _.
  no_fuel.
Qed.

Lemma filter_length_lt {A} (P Q : A → Prop)
    `{∀ x, Decision (P x)} `{∀ x, Decision (Q x)} (l : list A) x0 :
  (∀ x, Q x → P x) → x0 ∈ l → P x0 → ¬ Q x0 →
  length (filter Q l) < length (filter P l).
Proof.
  intros HQP. induction l as [|y l IH]; intros Hin HP HQ.
  - by apply not_elem_of_nil in Hin.
  - assert (Hle : length (filter Q l) ≤ length (filter P l)).
    { clear -HQP. induction l as [|z l IHl]; [done|].
      rewrite !filter_cons. repeat case_decide; simpl; try lia.
      exfalso; auto. }
    rewrite !filter_cons. apply elem_of_cons in Hin as [<-|Hin].
    + destruct (decide (Q x0)), (decide (P x0)); try done. simpl. lia.
    + specialize (IH Hin HP HQ).
      repeat case_decide; simpl; try lia. exfalso; auto.
Qed.

Lemma unassigned_count_set c a var value :
  unassigned c a var →
  unassigned_count c (dict_set var value a) < unassigned_count c a.
Proof.
  intros [Hin Hvar]. unfold unassigned_count.
  apply (filter_length_lt _ _ _ var); [|done|done|].
  - intros v. rewrite !dict_in_false, dict_get_set. by case_decide.
  - rewrite dict_in_false, dict_get_set. by rewrite decide_True.
Qed.

Lemma try_values_not_OutOfFuel c (rec : Search) a selectedVar values st :
  (∀ value st0, rec (dict_set selectedVar value a) st0 ≠ OutOfFuel) →
  try_values c rec a selectedVar values st ≠ OutOfFuel.
Proof.
  intros Hrec. revert st. induction values as [|value values IH]; intros st.
  - done.
  - simpl. apply bind_not_OutOfFuel.
    + unfold try_value. apply bind_not_OutOfFuel; [apply ac3_not_OutOfFuel|].
      intros [b d'] _. apply Hrec.
    + intros [[r|] st0] _; [done | apply IH].
Qed.

(** With more fuel than variables left to assign, [backtrack] returns or
    raises. *)
Lemma backtrack_not_OutOfFuel c rnd fuel a st :
  unassigned_count c a < fuel → backtrack c rnd fuel a st ≠ OutOfFuel.
Proof.
  revert a st. induction fuel as [|fuel IH]; intros a st Hlt; [lia|].
  simpl. destruct (assignment_complete c a).
  - apply bind_not_OutOfFuel; [apply consistent_not_OutOfFuel | done].
  - apply bind_not_OutOfFuel;
      [apply select_unassigned_variable_not_OutOfFuel|].
    intros [selectedVar k] Hsel.
    apply select_unassigned_variable_Ok in Hsel as (Hun & _).
    apply bind_not_OutOfFuel; [apply getitem_not_OutOfFuel|]. intros saved _.
    apply bind_not_OutOfFuel; [apply order_domain_values_not_OutOfFuel|].
    intros values _. apply bind_not_OutOfFuel.
    + apply try_values_not_OutOfFuel. intros value st0. apply IH.
      pose proof (unassigned_count_set c a selectedVar value Hun). lia.
    + by intros [[r|] st0] _.
Qed.

Lemma try_values_ext c (rec1 rec2 : Search) a selectedVar values st :
  (∀ value st0, rec1 (dict_set selectedVar value a) st0 =
                rec2 (dict_set selectedVar value a) st0) →
  try_values c rec1 a selectedVar values st =
  try_values c rec2 a selectedVar values st.
Proof.
  intros Hrec. revert st. induction values as [|value values IH]; intros st.
  - done.
  - simpl. unfold try_value.
    destruct (ac3 _ _ _) as [[b d']| |]; simpl; [|done..].
    rewrite Hrec. destruct (rec2 _ _) as [[[r|] st0]| |]; simpl; auto.
Qed.

(** Beyond that bound the amount of fuel does not matter. *)
Lemma backtrack_fuel c rnd fuel1 fuel2 a st :
  unassigned_count c a < fuel1 → unassigned_count c a < fuel2 →
  backtrack c rnd fuel1 a st = backtrack c rnd fuel2 a st.
Proof.
  revert fuel2 a st.
  induction fuel1 as [|fuel1 IH]; intros fuel2 a st H1 H2; [lia|].
  destruct fuel2 as [|fuel2]; [lia|].
  simpl. destruct (assignment_complete c a); [done|].
  destruct (select_unassigned_variable _ _ _ _ _)
    as [[selectedVar k]| |] eqn:Hsel; simpl; [|done..].
  apply select_unassigned_variable_Ok in Hsel as (Hun & _).
  destruct (getitem _ _) as [saved| |]; simpl; [|done..].
  destruct (order_domain_values _ _ _ _) as [values| |]; simpl; [|done..].
  rewrite (try_values_ext c (backtrack c rnd fuel1) (backtrack c rnd fuel2));
    [done|].
  intros value st0.
  pose proof (unassigned_count_set c a selectedVar value Hun).
  apply IH; lia.
Qed.

Lemma unassigned_count_le c a : unassigned_count c a ≤ length (variables c).
Proof. apply length_filter. Qed.

(** [solve] always returns or raises: its loops never run out of fuel. *)
Lemma solve_not_OutOfFuel c rnd : solve c rnd ≠ OutOfFuel.
Proof.
  unfold solve.
  apply bind_not_OutOfFuel; [apply enforce_node_consistency_not_OutOfFuel|].
  intros d1 _. apply bind_not_OutOfFuel; [apply ac3_not_OutOfFuel|].
  intros [b d2] _. apply backtrack_not_OutOfFuel.
  pose proof (unassigned_count_le c []). lia.
Qed.

(** * The claims of the specification *)

(** ** [revise] (claim C1) *)

(** The two stores of the running example are the ones [solve] reaches:
    [nodes1] after node consistency, [store1] after the pass over all
    arcs. *)
Lemma nodes1_reached :
  enforce_node_consistency (chain vocab1) (init_domains (chain vocab1)) = Ok nodes1.
Proof. vm_compute. reflexivity. Qed.

Lemma store1_reached : ac3 (chain vocab1) None nodes1 = Ok (true, store1).
Proof. vm_compute. reflexivity. Qed.

(** C1. [revise(x, y)] removes from the domain of [x] the words without a
    partner in the domain of [y] (see [revise_removes_unsupported]), but
    its result does not tell whether the domain changed: on the store
    [solve] reaches for [chain vocab1], [revise(slotA, slotB)] removes
    ["EF"] from the domain of [slotA] and returns [False]. *)
Theorem revise_changes_domain_returns_False :
  ∃ d', revise (chain vocab1) slotA slotB store1 = Ok (false, d') ∧
        store1 !! slotA = Some ["EF"; "AB"] ∧
        d' !! slotA = Some ["AB"].
Proof. eexists. split_and!; vm_compute; reflexivity. Qed.

(** ** [ac3] (claims C2, C5, C6) *)

Lemma arc_consistentb_complete c d :
  arc_consistent c d → arc_consistentb c d = true.
Proof.
  intros Hac. unfold arc_consistentb.
  apply forallb_forall. intros x Hx%list_elem_of_In.
  apply forallb_forall. intros y Hy%list_elem_of_In.
  destruct (d !! x) as [dx|] eqn:Hdx; [|done].
  destruct (d !! y) as [dy|] eqn:Hdy; [|done].
  apply forallb_forall. intros w Hw%list_elem_of_In.
  destruct (Hac x y dx dy w Hx Hy Hdx Hdy Hw)
    as (wy & ix & iy & ch & Hin & Hov & Hgx & Hgy).
  apply existsb_exists. exists wy. split; [by apply list_elem_of_In|].
  assert (overlap_eq (overlaps c x y) w wy = Ok true) as ->; [|done].
  apply overlap_eq_true. eauto 10.
Qed.

Lemma single_pass_fails_true c :
  single_pass_fails c = true →
  ∃ d1 d2, enforce_node_consistency c (init_domains c) = Ok d1 ∧
           ac3 c None d1 = Ok (true, d2) ∧ ¬ arc_consistent c d2.
Proof.
  unfold single_pass_fails. intros H.
  destruct (enforce_node_consistency _ _) as [d1| |]; [|done..].
  destruct (ac3 c None d1) as [[[] d2]| |] eqn:Hac3; [|done..].
  exists d1, d2. split_and!; [done..|].
  intros Hac%arc_consistentb_complete. by rewrite Hac in H.
Qed.

(** C2. [ac3] can return [True] on a store that is not arc consistent. For
    [chain vocab1] the pass over all arcs returns [True] and leaves ["EF"]
    in the domain of [slotA], although the only word left for [slotB],
    ["BXC"], does not start with an F. For [chain4] it does so whatever
    the order in which the variables and the neighbors are iterated. *)
Theorem ac3_True_not_arc_consistent :
  (ac3 (chain vocab1) None nodes1 = Ok (true, store1) ∧
   ¬ arc_consistent (chain vocab1) store1) ∧
  Forall (λ vars, ∀ revB revC,
            let c := chain4 vars revB revC in
            ∃ d1 d2, enforce_node_consistency c (init_domains c) = Ok d1 ∧
                     ac3 c None d1 = Ok (true, d2) ∧ ¬ arc_consistent c d2)
         (permutations [slotA; slotB; slotC; slotE]).
Proof.
  split.
  - split; [apply store1_reached|].
    intros Hac%arc_consistentb_complete. vm_compute in Hac. discriminate Hac.
  - apply Forall_forall. intros vars Hvars revB revC c.
    apply single_pass_fails_true.
    assert (Hall : forallb (λ vars,
                      forallb (λ fl, single_pass_fails (chain4 vars fl.1 fl.2))
                              [(false, false); (false, true);
                               (true, false); (true, true)])
                     (permutations [slotA; slotB; slotC; slotE]) = true)
      by (vm_compute; reflexivity).
    rewrite forallb_forall in Hall.
    specialize (Hall vars (proj1 (list_elem_of_In _ _) Hvars)).
    rewrite forallb_forall in Hall.
    apply (Hall (revB, revC)). apply list_elem_of_In.
    destruct revB, revC; set_solver.
Qed.

(** C5. [ac3] does not return [False] when a domain becomes empty. For
    [chain vocab_clash] the first arc already empties the domain of
    [slotA], yet the queue is drained and the result is [True]; and the
    same holds, for [slotA] or [slotB], in whatever order the variables and
    the neighbors are iterated. *)
Theorem ac3_True_with_empty_domain :
  (∃ d1 d2,
     enforce_node_consistency (chain vocab_clash)
       (init_domains (chain vocab_clash)) = Ok d1 ∧
     d1 !! slotA = Some ["AB"] ∧
     revise (chain vocab_clash) slotA slotB d1 = Ok (false, <[slotA := []]> d1) ∧
     ac3 (chain vocab_clash) None d1 = Ok (true, d2) ∧
     d2 !! slotA = Some []) ∧
  Forall (λ vars, ∀ revB,
            single_pass_empties (reorder revB false (puzzle vars vocab_clash)) = true)
         (permutations [slotA; slotB; slotC]).
Proof.
  split.
  - do 2 eexists. split_and!; vm_compute; reflexivity.
  - apply Forall_forall. intros vars Hvars revB.
    assert (Hall : forallb (λ vars,
                      forallb (λ b, single_pass_empties
                                      (reorder b false (puzzle vars vocab_clash)))
                              [false; true])
                     (permutations [slotA; slotB; slotC]) = true)
      by (vm_compute; reflexivity).
    rewrite forallb_forall in Hall.
    specialize (Hall vars (proj1 (list_elem_of_In _ _) Hvars)).
    rewrite forallb_forall in Hall.
    apply (Hall revB). apply list_elem_of_In. destruct revB; set_solver.
Qed.

(** C6. A turn of the loop of [ac3] that shrinks a domain to a non-empty
    set enqueues nothing: in the pass over all arcs of [chain vocab1] the
    third arc, [(slotB, slotC)], reduces the domain of [slotB] from two
    words to one, and the queue that is left is the rest of the old one,
    without the arc [(slotB, slotA)] to the other neighbor of [slotB]. *)
Theorem ac3_body_enqueues_nothing :
  all_arcs (chain vocab1) =
    [(slotA, slotB); (slotB, slotA); (slotB, slotC); (slotC, slotB)] ∧
  ac3_body (chain vocab1) slotA slotB
    [(slotB, slotA); (slotB, slotC); (slotC, slotB)] nodes1 =
    Ok (Continue [(slotB, slotA); (slotB, slotC); (slotC, slotB)] nodes1) ∧
  ac3_body (chain vocab1) slotB slotA [(slotB, slotC); (slotC, slotB)] nodes1 =
    Ok (Continue [(slotB, slotC); (slotC, slotB)] nodes1) ∧
  ac3_body (chain vocab1) slotB slotC [(slotC, slotB)] nodes1 =
    Ok (Continue [(slotC, slotB)] store1) ∧
  nodes1 !! slotB = Some ["BXC"; "FYZ"] ∧
  store1 !! slotB = Some ["BXC"] ∧
  neighbors (chain vocab1) slotB = [slotA; slotC].
Proof. split_and!; vm_compute; reflexivity. Qed.

(** ** The assignment [solve] returns (claims C3, C10) *)

(** [solve] returns what its call of [backtrack] returns. *)
Lemma solve_Some c rnd a st :
  solve c rnd = Ok (Some a, st) →
  assignment_complete c a = true ∧ consistent c a = Ok true.
Proof.
  unfold solve. intros H.
  inv_bind H as d1 Hd1. inv_bind H as p Hp. destruct p as [b d2].
  by eapply backtrack_Some.
Qed.

(** C3. An assignment returned by [backtrack], and so one returned by
    [solve], gives a word to every variable of the model, gives different
    words to different variables, gives every variable a word of its
    length, and makes every variable agree with each of its neighbors at
    the indices of their overlap. *)
Theorem solve_returns_complete_consistent c rnd :
  (∀ fuel a0 st0 a st,
     backtrack c rnd fuel a0 st0 = Ok (Some a, st) →
     complete c a ∧ distinct_words a ∧ lengths_match a ∧ overlaps_satisfied c a) ∧
  (∀ a st,
     solve c rnd = Ok (Some a, st) →
     complete c a ∧ distinct_words a ∧ lengths_match a ∧ overlaps_satisfied c a).
Proof.
  assert (Hb : ∀ fuel a0 st0 a st,
     backtrack c rnd fuel a0 st0 = Ok (Some a, st) →
     complete c a ∧ distinct_words a ∧ lengths_match a ∧ overlaps_satisfied c a).
  { intros fuel a0 st0 a st H.
    apply backtrack_Some in H as [Hc Hk].
    apply assignment_complete_true in Hc. apply consistent_true in Hk.
    tauto. }
  split; [done|]. intros a st H. unfold solve in H.
  inv_bind H as d1 Hd1. inv_bind H as p Hp. destruct p as [b d2]. eauto.
Qed.

Lemma overlaps_satisfied_all_pairs c a x y ix iy :
  overlapping_are_neighbors c → complete c a → overlaps_satisfied c a →
  x ∈ variables c → y ∈ variables c → overlaps c x y = Some (ix, iy) →
  ∃ wx wy ch, dict_get x a = Some wx ∧ dict_get y a = Some wy ∧
    String.get ix wx = Some ch ∧ String.get iy wy = Some ch.
Proof.
  intros Hn Hc Hov Hx Hy Hxy.
  destruct (Hc x Hx) as [wx Hwx].
  destruct (Hov x y wx ix iy Hwx) as (wy & ch & ? & ? & ?); [|done|].
  - apply Hn; [done..|]. by rewrite Hxy.
  - by exists wx, wy, ch.
Qed.

Lemma crossing_is_Some x y :
  is_Some (crossing x y) ↔ x ≠ y ∧ ∃ cell, cell ∈ cells x ∧ cell ∈ cells y.
Proof.
  unfold crossing. destruct (decide (x = y)) as [->|Hne].
  - split; [by intros [? ?] | by intros [? _]].
  - split.
    + intros [[ix iy] H]. split; [done|].
      destruct (list_find _ (cells x)) as [[jx cell]|] eqn:Hfx; [|done].
      apply list_find_Some in Hfx as (Hl & Hin & _).
      exists cell. split; [by eapply list_elem_of_lookup_2 | done].
    + intros (_ & cell & Hcx & Hcy).
      destruct (list_find_elem_of (λ cell, cell ∈ cells y) (cells x) cell)
        as [[jx cell'] Hfx]; [done..|].
      rewrite Hfx. simpl.
      apply list_find_Some in Hfx as (_ & Hin & _).
      destruct (list_find_elem_of (λ c0, c0 = cell') (cells y) cell')
        as [[jy cell''] Hfy]; [done..|].
      rewrite Hfy. simpl. eauto.
Qed.

Lemma puzzle_overlapping_are_neighbors vars vocabulary :
  overlapping_are_neighbors (puzzle vars vocabulary).
Proof.
  intros x y Hx Hy Hov. simpl in *.
  apply crossing_is_Some in Hov as (Hne & cell & Hcx & Hcy).
  apply list_elem_of_filter. split; [|done]. split; [done|].
  apply crossing_is_Some. eauto.
Qed.

Lemma solve_returns_complete_consistent_witness :
  let a := [(slotC, "CCCC"); (slotB, "BXC"); (slotA, "AB")] in
  complete (chain vocab1) a ∧ distinct_words a ∧ lengths_match a ∧
  overlaps_satisfied (chain vocab1) a.
Proof.
  intros a.
  apply (proj2 (solve_returns_complete_consistent (chain vocab1) rnd0) a
           (mkSolver (<[slotA := ["AB"]]> store1) 2 5)).
  vm_compute. reflexivity.
Defined.

(** C10. On a model without variables [solve] returns the empty
    assignment, a value other than [None]; and whatever mapping [solve]
    returns is complete, so that it is never a partial one, and is the
    empty one only for a model without variables. *)
Theorem solve_zero_variables c rnd :
  (variables c = [] →
   ∃ st, solve c rnd = Ok (Some [], st) ∧ Some ([] : Assignment) ≠ None) ∧
  (∀ a st, solve c rnd = Ok (Some a, st) →
           complete c a ∧ (a = [] → variables c = [])).
Proof.
  split.
  - intros Hv. destruct c as [vars ws ov ns]. simpl in Hv. subst vars.
    eexists. split; [|done]. vm_compute. reflexivity.
  - intros a st H.
    apply solve_Some in H as [Hc%assignment_complete_true _].
    split; [done|]. intros ->.
    destruct (variables c) as [|v vars] eqn:Hv; [done|].
    destruct (Hc v) as [w Hw]; [rewrite Hv; left | done].
Qed.

Lemma solve_zero_variables_witness :
  ∃ st, solve (puzzle [] ["AB"]) rnd0 = Ok (Some [], st) ∧
        Some ([] : Assignment) ≠ None.
Proof.
  apply (proj1 (solve_zero_variables (puzzle [] ["AB"]) rnd0)).
  reflexivity.
Defined.

(** ** [solve] when a domain is empty before the search (claim C4) *)

Lemma pruned_empty_short : pruned_empty (chain vocab_short).
Proof.
  exists (list_to_map [(slotA, ["AB"]); (slotB, []); (slotC, ["CCCC"])]),
    true, (list_to_map [(slotA, []); (slotB, []); (slotC, [])]), slotB.
  split_and!; vm_compute; try reflexivity. right; left.
Qed.

(** Counterexample to C4 as stated: for [chain vocab_short] node
    consistency empties the domain of [slotB], and [solve] still calls
    [backtrack]. *)
Lemma solve_searches_on_empty_domain :
  pruned_empty (chain vocab_short) ∧
  ¬ returns_without_search (chain vocab_short) rnd0.
Proof.
  split; [apply pruned_empty_short|].
  intros (st & Hst & Hcalls). vm_compute in Hst.
  injection Hst as <-. discriminate Hcalls.
Qed.

Lemma order_domain_values_nil c d var a :
  d !! var = Some [] → order_domain_values c d var a = Ok [].
Proof.
  intros H. unfold order_domain_values.
  apply getitem_Ok in H. by rewrite H.
Qed.

Lemma assignment_complete_nil c v :
  v ∈ variables c → assignment_complete c [] = false.
Proof.
  intros Hv. apply not_true_iff_false. rewrite assignment_complete_true.
  intros Hc. by destruct (Hc v Hv).
Qed.

(** With an empty domain in the store, the first call of [backtrack] picks
    a variable with an empty domain, has no value to try, and fails. *)
Lemma backtrack_empty_domain c rnd fuel d v k n :
  (∀ x, x ∈ variables c → is_Some (d !! x)) →
  v ∈ variables c → d !! v = Some [] →
  ∃ k', backtrack c rnd (S fuel) [] (mkSolver d k n) =
        Ok (None, mkSolver d k' (S n)).
Proof.
  intros Hkeys Hv Hempty. simpl.
  rewrite (assignment_complete_nil c v Hv).
  destruct (select_unassigned_variable_total c rnd [] d k Hkeys
              (assignment_complete_nil c v Hv)) as (var & k' & Hsel).
  rewrite Hsel. simpl.
  apply select_unassigned_variable_Ok in Hsel as (_ & [ws Hws] & Hmin & _).
  assert (ws = []) as ->.
  { specialize (Hmin v (conj Hv eq_refl)).
    unfold domain_size in Hmin. rewrite Hws, Hempty in Hmin. simpl in Hmin.
    destruct ws; [done | simpl in Hmin; lia]. }
  rewrite (proj2 (getitem_Ok _ _ _) Hws). simpl.
  rewrite (order_domain_values_nil _ _ _ _ Hws). simpl.
  exists k'. unfold with_domains. simpl. by rewrite insert_id.
Qed.

(** C4, amended. When node consistency or the pass of [ac3] over all arcs
    leaves a variable with an empty domain, [solve] returns [None]: it
    drops the result of [ac3] and calls [backtrack] on the empty
    assignment, and that one call fails without trying any value. *)
Theorem solve_empty_domain_no_solution c rnd :
  pruned_empty c → ∃ st, solve c rnd = Ok (None, st) ∧ calls st = 1.
Proof.
  intros (d1 & b & d2 & v & Hd1 & Hd2 & Hv & Hempty).
  unfold solve. rewrite Hd1. cbn [mbind outcome_bind].
  rewrite Hd2. cbn [mbind outcome_bind].
  destruct (backtrack_empty_domain c rnd (length (variables c)) d2 v 0 0)
    as [k' Hbt]; [|done|done|].
  - intros x Hx.
    apply (ac3_same_keys _ _ _ _ _ Hd2).
    apply (enforce_node_consistency_same_keys _ _ _ Hd1).
    rewrite init_domains_lookup by done. eauto.
  - rewrite Hbt. eauto.
Qed.

Lemma solve_empty_domain_no_solution_witness :
  ∃ st, solve (chain vocab_short) rnd0 = Ok (None, st) ∧ calls st = 1.
Proof.
  apply (solve_empty_domain_no_solution (chain vocab_short) rnd0).
  exists (list_to_map [(slotA, ["AB"]); (slotB, []); (slotC, ["CCCC"])]),
    true, (list_to_map [(slotA, []); (slotB, []); (slotC, [])]), slotB.
  split; [vm_compute; reflexivity|].
  split; [vm_compute; reflexivity|].
  split; [right; left | vm_compute; reflexivity].
Defined.

(** ** The Domain Store across a failed branch (claim C7) *)

Lemma store_twin_reached :
  (d1 ← enforce_node_consistency twin (init_domains twin); ac3 twin None d1) =
  Ok (true, store_twin).
Proof. vm_compute. reflexivity. Qed.

(** Counterexample to C7 as stated. In the search on [twin], the call of
    [backtrack] with [slotD] and [slotB] assigned selects [slotA] and tries
    ["CB"] then ["XF"]. The pass of [ac3] for ["CB"] removes ["XF"] from
    the domain of [slotA]; the recursive call fails (["CB"] is used
    twice); and the store is then not the one the candidate started
    from. *)
Lemma try_value_leaves_store_pruned :
  let a := [(slotD, "CB"); (slotB, "BXC")] in
  let st := mkSolver store_twin 2 3 in
  select_unassigned_variable twin rnd0 a store_twin 2 = Ok (slotA, 2) ∧
  order_domain_values twin store_twin slotA a = Ok ["CB"; "XF"] ∧
  ∃ st', try_value twin (backtrack twin rnd0 1) a slotA "CB" st = Ok (None, st') ∧
         domains st !! slotA = Some ["CB"; "XF"] ∧
         domains st' !! slotA = Some ["CB"] ∧
         domains st' ≠ domains st.
Proof.
  intros a st. split; [vm_compute; reflexivity|].
  split; [vm_compute; reflexivity|].
  eexists. split; [vm_compute; reflexivity|].
  split; [vm_compute; reflexivity|].
  split; [vm_compute; reflexivity|].
  intros Heq. apply (f_equal (λ d : Store, d !! slotA)) in Heq.
  vm_compute in Heq. discriminate Heq.
Qed.

(** C7, amended. A call of [backtrack] that returns [None] leaves the
    Domain Store as it was on entry. The domain of the selected variable
    is saved once before the loop over the candidates and written back
    once after the last of them has failed; between two candidates nothing
    is restored, and the store then differs from the one on entry at most
    in the domain of the selected variable. *)
Theorem backtrack_failure_restores_store c rnd :
  (∀ fuel a st st',
     backtrack c rnd fuel a st = Ok (None, st') → domains st' = domains st) ∧
  (∀ fuel a selectedVar values st st' z,
     try_values c (backtrack c rnd fuel) a selectedVar values st = Ok (None, st') →
     z ≠ selectedVar → domains st' !! z = domains st !! z).
Proof.
  split.
  - intros fuel a st st'. apply backtrack_None_restores.
  - intros fuel a selectedVar values st st' z.
    apply try_values_frame. intros a0 st0 st1.
    apply backtrack_None_restores.
Qed.

Lemma backtrack_failure_restores_store_witness :
  ∃ st', backtrack twin rnd0 4 [] (mkSolver store_twin 0 0) = Ok (None, st') ∧
         domains st' = store_twin.
Proof.
  exists (mkSolver store_twin 2 5).
  assert (H : backtrack twin rnd0 4 [] (mkSolver store_twin 0 0) =
              Ok (None, mkSolver store_twin 2 5)) by (vm_compute; reflexivity).
  split; [exact H|].
  exact (proj1 (backtrack_failure_restores_store twin rnd0) 4 [] _ _ H).
Defined.

(** ** The heuristics (claims C8, C9) *)

(** C8. [select_unassigned_variable] breaks a tie on the domain size by the
    least number of neighbors, not the greatest: at the start of the search
    on [chain vocab1], [slotB] and [slotC] both have one word left, [slotB]
    has two neighbors and [slotC] one, and [slotC] is returned whatever the
    generator draws. *)
Theorem select_picks_lowest_degree (rnd : nat → nat) (k : nat) :
  select_unassigned_variable (chain vocab1) rnd [] store1 k = Ok (slotC, S k) ∧
  domain_size store1 slotB = 1 ∧ domain_size store1 slotC = 1 ∧
  domain_size store1 slotA = 2 ∧
  degree (chain vocab1) slotB = 2 ∧ degree (chain vocab1) slotC = 1.
Proof.
  split_and!; vm_compute; reflexivity.
Qed.

(** What [order_domain_values] sorts by. *)

Lemma overlap_eq_compatible overlap w wn b :
  overlap_eq overlap w wn = Ok b → compatible overlap w wn = b.
Proof.
  unfold overlap_eq, compatible, subscript.
  destruct overlap as [[ix iy]|]; [|done].
  destruct (String.get ix w); [|done].
  destruct (String.get iy wn); [|done]. simpl. congruence.
Qed.

Lemma count_words_Ok overlap w dn n0 n :
  foldM (λ n neighborWord,
           b ← overlap_eq overlap w neighborWord;
           Ok (if b : bool then S n else n)) n0 dn = Ok n →
  n = n0 + length (filter (λ wn, compatible overlap w wn = true) dn).
Proof.
  revert n0. induction dn as [|wn dn IH]; intros n0 H.
  - inv_Ok H. simpl. lia.
  - simpl in H. inv_bind H as n1 Hn1. inv_bind Hn1 as b Hb. inv_Ok Hn1.
    apply overlap_eq_compatible in Hb. apply IH in H. rewrite filter_cons.
    destruct b; rewrite Hb.
    + rewrite decide_True by done. simpl. lia.
    + rewrite decide_False by done. lia.
Qed.

Lemma count_neighbors_Ok c d var (a : Assignment) w ns n0 n :
  foldM (λ n neighbor,
           if dict_in neighbor a then Ok n
           else
             dn ← getitem d neighbor;
             foldM (λ n neighborWord,
                      b ← overlap_eq (overlaps c var neighbor) w neighborWord;
                      Ok (if b : bool then S n else n))
                   n dn)
        n0 ns = Ok n →
  n = n0 +
      sum_list_with
        (λ nb, length (filter (λ wn, compatible (overlaps c var nb) w wn = true)
                              (default [] (d !! nb))))
        (filter (λ nb, dict_in nb a = false) ns).
Proof.
  revert n0. induction ns as [|nb ns IH]; intros n0 H.
  - inv_Ok H. simpl. lia.
  - simpl in H. inv_bind H as n1 Hn1. apply IH in H. rewrite filter_cons.
    destruct (dict_in nb a) eqn:Hin.
    + inv_Ok Hn1. by rewrite decide_False by done.
    + inv_bind Hn1 as dn Hdn. apply getitem_Ok in Hdn.
      apply count_words_Ok in Hn1. rewrite decide_True by done.
      simpl. rewrite Hdn. simpl. lia.
Qed.

(** The counter [n] of [order_domain_values] is the support count. *)
Lemma count_for_Ok c d var a w n :
  count_for c d var a w = Ok n → n = support_count c d var a w.
Proof. intros H. by apply count_neighbors_Ok in H. Qed.

(** Support and conflicts add up to a number that does not depend on the
    value: the words of the neighbors without a word. *)
Lemma support_conflict_total c d var a w :
  support_count c d var a w + conflict_count c d var a w =
  sum_list_with (domain_size d) (filter (λ n, dict_in n a = false) (neighbors c var)).
Proof.
  unfold support_count, conflict_count.
  induction (filter _ (neighbors c var)) as [|nb ns IH]; simpl; [done|].
  assert (Hsplit : ∀ l : list string,
    length (filter (λ wn, compatible (overlaps c var nb) w wn = true) l) +
    length (filter (λ wn, compatible (overlaps c var nb) w wn = false) l) =
    length l).
  { induction l as [|wn l IHl]; [done|]. rewrite !filter_cons.
    destruct (compatible (overlaps c var nb) w wn).
    - rewrite decide_True by done. rewrite decide_False by done. simpl. lia.
    - rewrite decide_False by done. rewrite decide_True by done. simpl. lia. }
  rewrite <- IH. unfold domain_size at 1.
  rewrite <- (Hsplit (default [] (d !! nb))). lia.
Qed.

Lemma insert_by_value_elem {A} (x p : A * nat) l :
  p ∈ insert_by_value x l ↔ p = x ∨ p ∈ l.
Proof.
  induction l as [|y l IH]; simpl.
  - rewrite list_elem_of_singleton, elem_of_nil. naive_solver.
  - destruct (x.2 <=? y.2); rewrite !elem_of_cons; [done|].
    rewrite IH. naive_solver.
Qed.

Lemma insert_by_value_sorted {A} (x : A * nat) l :
  StronglySorted (λ p q, p.2 ≤ q.2) l →
  StronglySorted (λ p q, p.2 ≤ q.2) (insert_by_value x l).
Proof.
  induction 1 as [|y l Hs IH Hy]; simpl.
  - repeat constructor.
  - destruct (x.2 <=? y.2) eqn:Hle.
    + apply Nat.leb_le in Hle. constructor; [by constructor|].
      constructor; [done|]. eapply Forall_impl; [done|]. simpl. lia.
    + apply Nat.leb_gt in Hle. constructor; [done|].
      apply Forall_forall. intros p [->|Hp]%insert_by_value_elem; [lia|].
      by eapply Forall_forall in Hy.
Qed.

Lemma sorted_by_value_sorted {A} (l : list (A * nat)) :
  StronglySorted (λ p q, p.2 ≤ q.2) (sorted_by_value l).
Proof.
  induction l as [|x l IH]; simpl; [constructor|].
  by apply insert_by_value_sorted.
Qed.

Lemma sorted_by_value_elem {A} (l : list (A * nat)) p :
  p ∈ sorted_by_value l ↔ p ∈ l.
Proof.
  induction l as [|x l IH]; simpl; [done|].
  by rewrite insert_by_value_elem, elem_of_cons, IH.
Qed.

Lemma StronglySorted_lookup {A} (R : relation A) l i j x y :
  StronglySorted R l → i < j → l !! i = Some x → l !! j = Some y → R x y.
Proof.
  intros Hs. revert i j. induction Hs as [|z l Hs IH Hz]; intros i j Hij Hi Hj.
  - done.
  - destruct j as [|j]; [lia|]. destruct i as [|i]; simpl in *.
    + simplify_eq. eapply Forall_forall in Hz; [done|].
      by eapply list_elem_of_lookup_2.
    + apply (IH i j); [lia|done..].
Qed.

(** The values come out by ascending support, that is, by descending
    conflict count: the value that rules out the most comes first. *)
Lemma order_domain_values_Ok c d var a values i j w1 w2 :
  order_domain_values c d var a = Ok values →
  i < j → values !! i = Some w1 → values !! j = Some w2 →
  support_count c d var a w1 ≤ support_count c d var a w2 ∧
  conflict_count c d var a w2 ≤ conflict_count c d var a w1.
Proof.
  unfold order_domain_values. intros H Hij Hi Hj.
  inv_bind H as dv Hdv. inv_bind H as m Hm. inv_Ok H.
  assert (Hgraph : ∀ p, p ∈ m → p.2 = support_count c d var a p.1).
  { revert Hm.
    apply (foldM_invariant
             (λ m : list (string * nat),
                ∀ p, p ∈ m → p.2 = support_count c d var a p.1));
      [by intros p ?%not_elem_of_nil|].
    intros m0 w m1 Hm0 _ Hstep p Hp. inv_bind Hstep as n Hn. inv_Ok Hstep.
    apply dict_set_elem in Hp as [->|Hp]; [|by apply Hm0].
    by apply count_for_Ok in Hn. }
  rewrite list_lookup_fmap in Hi, Hj.
  destruct (sorted_by_value m !! i) as [p1|] eqn:Hp1; [|done].
  destruct (sorted_by_value m !! j) as [p2|] eqn:Hp2; [|done].
  simpl in Hi, Hj. simplify_eq.
  pose proof (StronglySorted_lookup _ _ _ _ _ _
                (sorted_by_value_sorted m) Hij Hp1 Hp2) as Hle.
  simpl in Hle.
  apply list_elem_of_lookup_2, sorted_by_value_elem, Hgraph in Hp1, Hp2.
  pose proof (support_conflict_total c d var a p1.1).
  pose proof (support_conflict_total c d var a p2.1).
  lia.
Qed.

Lemma store_lcv_reached :
  (d1 ← enforce_node_consistency (chain vocab_lcv) (init_domains (chain vocab_lcv));
   ac3 (chain vocab_lcv) None d1) = Ok (true, store_lcv).
Proof. vm_compute. reflexivity. Qed.

(** C9. [order_domain_values] sorts by the number of words of the
    neighbors that are compatible with a value, not by the number that are
    ruled out: at the start of the search on [chain vocab_lcv] the values
    of [slotA] come out as ["CD"] then ["AB"], although ["CD"] rules out
    two words of [slotB] and ["AB"] only one. *)
Theorem order_domain_values_counts_partners :
  order_domain_values (chain vocab_lcv) store_lcv slotA [] = Ok ["CD"; "AB"] ∧
  count_for (chain vocab_lcv) store_lcv slotA [] "CD" = Ok 1 ∧
  count_for (chain vocab_lcv) store_lcv slotA [] "AB" = Ok 2 ∧
  conflict_count (chain vocab_lcv) store_lcv slotA [] "CD" = 2 ∧
  conflict_count (chain vocab_lcv) store_lcv slotA [] "AB" = 1.
Proof. split_and!; vm_compute; reflexivity. Qed.

(** * Further properties of the solver *)

(** ** Node consistency *)

Lemma remove_word_filter (P : string → Prop) `{∀ w, Decision (P w)} word ws :
  ¬ P word → filter P (remove_word word ws) = filter P ws.
Proof.
  intros Hword. unfold remove_word.
  induction ws as [|w ws IH]; [done|].
  rewrite !filter_cons. destruct (decide (w ≠ word)) as [Hne|Heq].
  - rewrite filter_cons. by rewrite IH.
  - apply dec_stable in Heq as ->. by rewrite decide_False.
Qed.

(** The inner loop of [enforce_node_consistency] on the words [ws] of the
    original domain of [var], from a copy [cur] of that domain. *)
Lemma enforce_inner_Ok var (ws : list string) (nd nd' : Store) cur :
  foldM (λ nd word,
           if bool_decide (var_length var ≠ String.length word)
           then cur ← getitem nd var;
                Ok (<[var := remove_word word cur]> nd)
           else Ok nd) nd ws = Ok nd' →
  nd !! var = Some cur →
  ∃ cur', nd' !! var = Some cur' ∧
    (∀ z, z ≠ var → nd' !! z = nd !! z) ∧
    filter (λ w, String.length w = var_length var) cur' =
      filter (λ w, String.length w = var_length var) cur ∧
    (∀ w, w ∈ cur' → w ∈ cur ∧ (w ∈ ws → String.length w = var_length var)).
Proof.
  revert nd cur. induction ws as [|word ws IH]; intros nd cur H Hcur.
  - inv_Ok H. exists cur. split_and!; [done..|]. intros w Hw. split; [done|].
    by intros ?%not_elem_of_nil.
  - simpl in H. inv_bind H as nd1 Hnd1. case_bool_decide as Hlen.
    + inv_bind Hnd1 as cur0 Hcur0. apply getitem_Ok in Hcur0. inv_Ok Hnd1.
      rewrite Hcur in Hcur0. injection Hcur0 as <-.
      destruct (IH _ (remove_word word cur) H) as (cur' & Hc' & Hfr & Hfil & Hin).
      { by rewrite lookup_insert_eq. }
      exists cur'. split_and!; [done| | |].
      * intros z Hz. rewrite Hfr by done. by rewrite lookup_insert_ne.
      * rewrite Hfil. apply remove_word_filter. congruence.
      * intros w Hw. destruct (Hin w Hw) as [Hrem Hws].
        unfold remove_word in Hrem. apply list_elem_of_filter in Hrem as [Hne Hw0].
        split; [done|]. intros [->|?]%elem_of_cons; [done | auto].
    + inv_Ok Hnd1.
      destruct (IH _ cur H Hcur) as (cur' & Hc' & Hfr & Hfil & Hin).
      exists cur'. split_and!; [done..|].
      intros w Hw. destruct (Hin w Hw) as [Hw0 Hws]. split; [done|].
      intros [->|?]%elem_of_cons; [congruence | auto].
Qed.

Lemma filter_all {A} (P : A → Prop) `{∀ x, Decision (P x)} (l : list A) :
  (∀ x, x ∈ l → P x) → filter P l = l.
Proof.
  induction l as [|x l IH]; intros Hall; [done|].
  rewrite filter_cons, decide_True by (apply Hall; left).
  f_equal. apply IH. intros y Hy. apply Hall. by right.
Qed.

Lemma filter_filter_same {A} (P : A → Prop) `{∀ x, Decision (P x)} (l : list A) :
  filter P (filter P l) = filter P l.
Proof. apply filter_all. by intros x [? _]%list_elem_of_filter. Qed.

Lemma enforce_outer_Ok (d : Store) l (visited : list Var) nd nd' :
  foldM (λ newDomains var,
           ws ← getitem d var;
           foldM (λ nd word,
                    if bool_decide (var_length var ≠ String.length word)
                    then cur ← getitem nd var;
                         Ok (<[var := remove_word word cur]> nd)
                    else Ok nd)
                 newDomains ws) nd l = Ok nd' →
  (∀ v, v ∈ visited → ∃ dv, d !! v = Some dv ∧
        nd !! v = Some (filter (λ w, String.length w = var_length v) dv)) →
  (∀ v, v ∉ visited → nd !! v = d !! v) →
  (∀ v, v ∈ visited ++ l → ∃ dv, d !! v = Some dv ∧
        nd' !! v = Some (filter (λ w, String.length w = var_length v) dv)) ∧
  (∀ v, v ∉ visited ++ l → nd' !! v = d !! v).
Proof.
  revert visited nd. induction l as [|var l IH]; intros visited nd H Hvis Hrest.
  - inv_Ok H. by rewrite app_nil_r.
  - simpl in H. inv_bind H as nd1 Hnd1. inv_bind Hnd1 as ws Hws.
    apply getitem_Ok in Hws.
    assert (∃ cur, nd !! var = Some cur ∧
              (∀ w, w ∈ cur → w ∈ ws) ∧
              filter (λ w, String.length w = var_length var) cur =
              filter (λ w, String.length w = var_length var) ws)
      as (cur & Hcur & Hsub & Hfil).
    { destruct (decide (var ∈ visited)) as [Hin|Hnin].
      - destruct (Hvis var Hin) as (dv & Hdv & Hnd). simplify_eq.
        eexists. split; [done|]. split.
        + by intros w [_ ?]%list_elem_of_filter.
        + apply filter_filter_same.
      - exists ws. by rewrite Hrest. }
    destruct (enforce_inner_Ok _ _ _ _ _ Hnd1 Hcur)
      as (cur' & Hcur' & Hfr & Hfil' & Hin').
    assert (cur' = filter (λ w, String.length w = var_length var) ws) as ->.
    { rewrite <- Hfil, <- Hfil'. symmetry. apply filter_all.
      intros w Hw. destruct (Hin' w Hw) as [Hc Hp]. auto. }
    rewrite (cons_middle var visited l), app_assoc.
    apply (IH (visited ++ [var]) nd1 H).
    + intros v [Hv| ->%list_elem_of_singleton]%elem_of_app.
      * destruct (decide (v = var)) as [->|Hne]; [eauto|].
        rewrite Hfr by done. auto.
      * eauto.
    + intros v Hv. rewrite elem_of_app, list_elem_of_singleton in Hv.
      rewrite Hfr by tauto. apply Hrest. tauto.
Qed.

Lemma enforce_node_consistency_filter c d d' :
  enforce_node_consistency c d = Ok d' →
  (∀ v, v ∈ variables c → ∃ dv, d !! v = Some dv ∧
        d' !! v = Some (filter (λ w, String.length w = var_length v) dv)) ∧
  (∀ v, v ∉ variables c → d' !! v = d !! v).
Proof.
  intros H. apply (enforce_outer_Ok d (variables c) [] d d' H).
  - by intros v ?%not_elem_of_nil.
  - done.
Qed.

Lemma enforce_node_consistency_total c d :
  (∀ v, v ∈ variables c → is_Some (d !! v)) →
  ∃ d', enforce_node_consistency c d = Ok d'.
Proof.
  unfold enforce_node_consistency. intros Hkeys.
  assert (Hgen : ∀ l nd, same_keys d nd → (∀ v, v ∈ l → is_Some (d !! v)) →
    ∃ nd', foldM (λ newDomains var,
           ws ← getitem d var;
           foldM (λ nd word,
                    if bool_decide (var_length var ≠ String.length word)
                    then cur ← getitem nd var;
                         Ok (<[var := remove_word word cur]> nd)
                    else Ok nd)
                 newDomains ws) nd l = Ok nd').
  { induction l as [|var l IH]; intros nd Hsk Hl; simpl; [eauto|].
    destruct (Hl var) as [ws Hws]; [left|].
    rewrite (proj2 (getitem_Ok _ _ _) Hws). simpl.
    assert (Hin : ∀ ws nd0, same_keys d nd0 →
      ∃ nd1, foldM (λ nd word,
                    if bool_decide (var_length var ≠ String.length word)
                    then cur ← getitem nd var;
                         Ok (<[var := remove_word word cur]> nd)
                    else Ok nd) nd0 ws = Ok nd1 ∧ same_keys d nd1).
    { clear -Hws. induction ws0 as [|word ws0 IHw]; intros nd0 Hsk0; simpl; [eauto|].
      case_bool_decide; [|simpl; auto].
      destruct (proj2 (Hsk0 var)) as [cur Hcur]; [eauto|].
      rewrite (proj2 (getitem_Ok _ _ _) Hcur). simpl.
      apply IHw. eapply same_keys_trans; [done|].
      apply same_keys_insert. eauto. }
    destruct (Hin ws nd Hsk) as (nd1 & -> & Hsk1). simpl.
    apply IH; [done|]. intros v Hv. apply Hl. by right. }
  apply Hgen; [apply same_keys_refl | done].
Qed.

(** Node consistency in closed form. When [enforce_node_consistency]
    returns, the domain of every variable of the model is its old domain
    without the words of another length than the slot, in the old order,
    and the domain of anything else is as it was. It returns whenever
    every variable of the model has a domain. *)
Theorem enforce_node_consistency_closed_form c d :
  (∀ d', enforce_node_consistency c d = Ok d' →
     (∀ v, v ∈ variables c → ∃ dv, d !! v = Some dv ∧
           d' !! v = Some (filter (λ w, String.length w = var_length v) dv)) ∧
     (∀ v, v ∉ variables c → d' !! v = d !! v)) ∧
  ((∀ v, v ∈ variables c → is_Some (d !! v)) →
   ∃ d', enforce_node_consistency c d = Ok d').
Proof.
  split.
  - intros d'. apply enforce_node_consistency_filter.
  - apply enforce_node_consistency_total.
Qed.

Lemma enforce_node_consistency_closed_form_witness :
  ∃ d', enforce_node_consistency (chain vocab1) (init_domains (chain vocab1)) = Ok d'.
Proof.
  apply (proj2 (enforce_node_consistency_closed_form (chain vocab1)
                  (init_domains (chain vocab1)))).
  intros v Hv. vm_compute in Hv.
  repeat (apply elem_of_cons in Hv as [->|Hv]);
    [..|by apply not_elem_of_nil in Hv]; vm_compute; eauto.
Defined.

Lemma init_node_consistent c :
  ∃ d1, enforce_node_consistency c (init_domains c) = Ok d1 ∧
    ∀ v, v ∈ variables c →
      d1 !! v = Some (filter (λ w, String.length w = var_length v) (words c)).
Proof.
  destruct (enforce_node_consistency_total c (init_domains c)) as [d1 Hd1].
  { intros v Hv. rewrite init_domains_lookup by done. eauto. }
  exists d1. split; [done|]. intros v Hv.
  destruct (proj1 (enforce_node_consistency_filter _ _ _ Hd1) v Hv) as (dv & Hdv & ->).
  rewrite init_domains_lookup in Hdv by done. by simplify_eq.
Qed.

(** The start of [solve]: [__init__] then node consistency never raise, and
    leave every variable with the words of the vocabulary of its length, in
    the order of the vocabulary. *)
Theorem node_consistent_start c :
  ∃ d1, enforce_node_consistency c (init_domains c) = Ok d1 ∧
    ∀ v, v ∈ variables c →
      d1 !! v = Some (filter (λ w, String.length w = var_length v) (words c)).
Proof. apply init_node_consistent. Qed.

(** ** [revise] and [ac3] *)


Lemma filterM_all_true {A} (p : A → outcome bool) l :
  (∀ a, a ∈ l → p a = Ok true) → filterM p l = Ok l.
Proof.
  induction l as [|x l IH]; intros Hp; simpl; [done|].
  rewrite (Hp x) by (by left). simpl. rewrite IH; [done|].
  intros a Ha. apply Hp. by right.
Qed.

Lemma filterM_again {A} (p : A → outcome bool) l r :
  filterM p l = Ok r → filterM p r = Ok r.
Proof.
  intros H. apply filterM_all_true. intros a Ha.
  by apply (filterM_elem _ _ _ H) in Ha as [_ ?].
Qed.





(** Two variables that do not overlap cannot be revised against each other:
    with a word on each side, subscripting the overlap [None] is a
    [TypeError]. *)
Theorem revise_no_overlap c x y (d : Store) w dx wy dy :
  overlaps c x y = None →
  d !! x = Some (w :: dx) → d !! y = Some (wy :: dy) →
  revise c x y d = Raise TypeError.
Proof.
  intros Hov Hx Hy. unfold revise, has_overlap_word.
  rewrite (proj2 (getitem_Ok _ _ _) Hx). simpl.
  rewrite (proj2 (getitem_Ok _ _ _) Hy). simpl. by rewrite Hov.
Qed.

Lemma revise_no_overlap_witness :
  revise (chain vocab1) slotA slotC store1 = Raise TypeError.
Proof.
  apply (revise_no_overlap (chain vocab1) slotA slotC store1
           "EF" ["AB"] "CCCC" []); reflexivity.
Defined.

(** Revising an arc twice is revising it once. *)
Theorem revise_idempotent c x y d b d' :
  x ≠ y → revise c x y d = Ok (b, d') → revise c x y d' = Ok (false, d').
Proof.
  intros Hxy H. apply revise_Ok in H as (_ & dx & domain & Hx & Hf & ->).
  assert (Hget : ∀ ws (d0 : Store), getitem (<[x := ws]> d0) x = Ok ws).
  { intros ws d0. unfold getitem. by rewrite lookup_insert_eq. }
  assert (Hsame : ∀ w, has_overlap_word (<[x := domain]> d) (overlaps c x y) y w =
                       has_overlap_word d (overlaps c x y) y w).
  { intros w. unfold has_overlap_word, getitem. by rewrite lookup_insert_ne. }
  assert (Hagain : filterM (has_overlap_word (<[x := domain]> d) (overlaps c x y) y)
                     domain = Ok domain).
  { apply filterM_all_true. intros w Hw. rewrite Hsame.
    by apply (filterM_elem _ _ _ Hf) in Hw as [_ ?]. }
  unfold revise. rewrite Hget. cbn [mbind outcome_bind].
  rewrite Hagain. cbn [mbind outcome_bind].
  rewrite Hget. cbn [mbind outcome_bind].
  rewrite Nat.eqb_refl. by rewrite insert_insert_eq.
Qed.

Lemma revise_idempotent_witness :
  revise (chain vocab1) slotA slotB (<[slotA := ["AB"]]> store1) =
  Ok (false, <[slotA := ["AB"]]> store1).
Proof.
  apply (revise_idempotent (chain vocab1) slotA slotB store1 false).
  - discriminate.
  - vm_compute. reflexivity.
Defined.

Lemma ac3_fold_revise c arcs d :
  ac3 c arcs d =
  d' ← foldM (λ d arc, r ← revise c arc.1 arc.2 d; Ok r.2) d (initial_queue c arcs);
  Ok (true, d').
Proof.
  unfold ac3. generalize (initial_queue c arcs) as queue. intros queue.
  revert d. induction queue as [|[x y] rest IH]; intros d; [done|].
  cbn [length]. rewrite ac3_loop_cons. simpl.
  destruct (revise c x y d) as [[b d1]| |]; simpl; [|done..].
  apply IH.
Qed.

(** [ac3] is one pass: it revises each arc of the initial queue once, in
    order, and answers [True]. *)
Theorem ac3_is_one_pass c arcs d :
  ac3 c arcs d =
  d' ← foldM (λ d arc, r ← revise c arc.1 arc.2 d; Ok r.2) d (initial_queue c arcs);
  Ok (true, d').
Proof. apply ac3_fold_revise. Qed.

Lemma ac3_sublists c arcs d b d' :
  ac3 c arcs d = Ok (b, d') →
  ∀ v dv', d' !! v = Some dv' → ∃ dv, d !! v = Some dv ∧ sublist dv' dv.
Proof.
  intros H. rewrite ac3_fold_revise in H. inv_bind H as d1 Hd1. inv_Ok H.
  revert Hd1.
  apply (foldM_invariant
           (λ d1 : Store, ∀ v dv', d1 !! v = Some dv' →
                                   ∃ dv, d !! v = Some dv ∧ sublist dv' dv)).
  - intros v dv' Hv. by exists dv'.
  - intros d0 [x y] d1 Hd0 _ Hstep v dv' Hv. simpl in Hstep.
    inv_bind Hstep as r Hr. inv_Ok Hstep. destruct r as [b0 d1]. simpl in Hv.
    apply revise_Ok in Hr as (_ & dx & domain & Hx & Hf & ->).
    destruct (decide (v = x)) as [->|Hne].
    + rewrite lookup_insert_eq in Hv. inv_Ok Hv.
      destruct (Hd0 x dx Hx) as (dv & Hdv & Hsub). exists dv. split; [done|].
      etrans; [|done]. by eapply filterM_sublist.
    + rewrite lookup_insert_ne in Hv by done. auto.
Qed.

(** Domains only shrink under [ac3]: the store keeps its keys, and each
    domain afterwards is a sublist of the domain before. *)
Theorem ac3_shrinks c arcs d b d' :
  ac3 c arcs d = Ok (b, d') →
  same_keys d d' ∧
  ∀ v dv', d' !! v = Some dv' → ∃ dv, d !! v = Some dv ∧ sublist dv' dv.
Proof.
  intros H. split; [by eapply ac3_same_keys | by eapply ac3_sublists].
Qed.

Lemma ac3_shrinks_witness :
  same_keys nodes1 store1 ∧
  ∀ v dv', store1 !! v = Some dv' → ∃ dv, nodes1 !! v = Some dv ∧ sublist dv' dv.
Proof.
  apply (ac3_shrinks (chain vocab1) None nodes1 true store1).
  vm_compute. reflexivity.
Defined.

(** On a store that is arc consistent already, a pass of [ac3] over all
    arcs that returns has changed nothing. *)
Theorem ac3_arc_consistent_noop c d b d' :
  arc_consistent c d → ac3 c None d = Ok (b, d') → d' = d.
Proof.
  intros Hac H. rewrite ac3_fold_revise in H.
  inv_bind H as d1 Hd1. inv_Ok H. simpl in Hd1. unfold all_arcs in Hd1.
  assert (Harcs : ∀ arc, arc ∈ (x ← variables c; map (pair x) (neighbors c x)) →
                         arc.1 ∈ variables c ∧ arc.2 ∈ neighbors c arc.1).
  { intros arc (x & Harc & Hx)%list_elem_of_bind.
    apply list_elem_of_fmap in Harc as (y & -> & Hy). done. }
  revert Hd1 Harcs.
  generalize (x ← variables c; map (pair x) (neighbors c x)) as queue.
  induction queue as [|[x y] rest IH]; intros H Harcs.
  - by inv_Ok H.
  - simpl in H. inv_bind H as d2 Hd2. inv_bind Hd2 as r Hr. inv_Ok Hd2.
    destruct r as [b0 d2]. simpl in H.
    destruct (Harcs (x, y)) as [Hx Hy]; [left|]. simpl in Hx, Hy.
    apply revise_Ok in Hr as (_ & dx & domain & Hdx & Hf & ->).
    assert (domain = dx) as ->.
    { assert (filterM (has_overlap_word d (overlaps c x y) y) dx = Ok dx) as Hall;
        [|congruence].
      apply filterM_all_true. intros w Hw.
      destruct (filterM_defined _ _ _ Hf w Hw) as [[] Hb]; [done|].
      unfold has_overlap_word in Hb. inv_bind Hb as dy Hdy.
      apply getitem_Ok in Hdy.
      exfalso. eapply (has_overlap_word_false d (overlaps c x y) y dy w); [done| |].
      - unfold has_overlap_word. by rewrite (proj2 (getitem_Ok _ _ _) Hdy).
      - by eapply Hac. }
    rewrite insert_id in H by done. apply IH; [done|].
    intros arc Harc. apply Harcs. by right.
Qed.

Lemma arc_consistentb_sound c d :
  arc_consistentb c d = true → arc_consistent c d.
Proof.
  unfold arc_consistentb. intros H x y dx dy w Hx Hy Hdx Hdy Hw.
  rewrite forallb_forall in H.
  specialize (H x (proj1 (list_elem_of_In _ _) Hx)).
  rewrite forallb_forall in H.
  specialize (H y (proj1 (list_elem_of_In _ _) Hy)).
  rewrite Hdx, Hdy in H. rewrite forallb_forall in H.
  specialize (H w (proj1 (list_elem_of_In _ _) Hw)).
  apply existsb_exists in H as (wy & Hwy%list_elem_of_In & Heq).
  destruct (overlap_eq (overlaps c x y) w wy) as [[]| |] eqn:Hov; try done.
  apply overlap_eq_true in Hov as (ix & iy & ch & ? & ? & ?).
  by exists wy, ix, iy, ch.
Qed.

Lemma solved1_arc_consistent : arc_consistent (chain vocab1) solved1.
Proof. apply arc_consistentb_sound. vm_compute. reflexivity. Qed.

Lemma ac3_arc_consistent_noop_witness :
  ∃ d', ac3 (chain vocab1) None solved1 = Ok (true, d') ∧ d' = solved1.
Proof.
  exists solved1.
  assert (H : ac3 (chain vocab1) None solved1 = Ok (true, solved1))
    by (vm_compute; reflexivity).
  split; [exact H|].
  exact (ac3_arc_consistent_noop (chain vocab1) solved1 true solved1
           solved1_arc_consistent H).
Defined.

(** ** The heuristics *)

Lemma untreated_complete c a d :
  assignment_complete c a = true → untreated c a d = Ok [].
Proof.
  unfold assignment_complete, untreated. rewrite forallb_forall.
  generalize (@nil (Var * nat)) as m0.
  induction (variables c) as [|var vars IH]; intros m0 Hall; [done|].
  simpl. rewrite (Hall var) by (by left). simpl.
  apply IH. intros v Hv. apply Hall. by right.
Qed.

(** Asked for a variable when every variable has a word,
    [select_unassigned_variable] ends in [random.choice] on an empty list:
    an [IndexError]. *)
Theorem select_unassigned_variable_complete c rnd a d k :
  assignment_complete c a = true →
  select_unassigned_variable c rnd a d k = Raise IndexError.
Proof.
  intros Hc. unfold select_unassigned_variable.
  by rewrite (untreated_complete c a d Hc).
Qed.

Lemma select_unassigned_variable_complete_witness :
  select_unassigned_variable (chain vocab1) rnd0
    [(slotC, "CCCC"); (slotB, "BXC"); (slotA, "AB")] store1 0 = Raise IndexError.
Proof.
  apply select_unassigned_variable_complete. vm_compute. reflexivity.
Defined.

(** While some variable has no word, and every variable of the model has a
    domain, [select_unassigned_variable] returns, and what it returns is a
    variable of the model without a word whose domain is a smallest one
    among those; the generator is asked at most once. *)
Theorem select_unassigned_variable_least_domain c rnd a d k :
  (∀ v, v ∈ variables c → is_Some (d !! v)) →
  assignment_complete c a = false →
  ∃ var k', select_unassigned_variable c rnd a d k = Ok (var, k') ∧
    var ∈ variables c ∧ dict_in var a = false ∧
    (k' = k ∨ k' = S k) ∧
    ∀ v, v ∈ variables c → dict_in v a = false →
         domain_size d var ≤ domain_size d v.
Proof.
  intros Hkeys Hc.
  destruct (select_unassigned_variable_total c rnd a d k Hkeys Hc)
    as (var & k' & Hsel).
  exists var, k'. split; [done|].
  pose proof (select_unassigned_variable_Ok _ _ _ _ _ _ _ Hsel)
    as ([Hin Hun] & _ & Hmin & _).
  split_and!; [done..| |].
  - unfold select_unassigned_variable in Hsel.
    inv_bind Hsel as m Hm. inv_bind Hsel as r1 Hr1.
    destruct (length m =? 1).
    + inv_bind Hsel as v0 Hv0. inv_Ok Hsel. by left.
    + inv_bind Hsel as r2 Hr2. apply random_choice_Ok in Hsel as [_ ->].
      by right.
  - intros v Hv Hva. by apply Hmin.
Qed.

Lemma select_unassigned_variable_least_domain_witness :
  ∃ var k', select_unassigned_variable (chain vocab1) rnd0 [] store1 0 = Ok (var, k') ∧
    var ∈ variables (chain vocab1) ∧ dict_in var ([] : Assignment) = false ∧
    (k' = 0 ∨ k' = 1) ∧
    ∀ v, v ∈ variables (chain vocab1) → dict_in v ([] : Assignment) = false →
         domain_size store1 var ≤ domain_size store1 v.
Proof.
  apply (select_unassigned_variable_least_domain (chain vocab1) rnd0 [] store1 0).
  - intros v Hv. vm_compute in Hv.
    repeat (apply elem_of_cons in Hv as [->|Hv]);
      [..|by apply not_elem_of_nil in Hv]; vm_compute; eauto.
  - vm_compute. reflexivity.
Defined.

(** Among the variables without a word that tie on the smallest domain,
    the one returned has the fewest neighbors. *)
Theorem select_unassigned_variable_least_degree c rnd a d k var k' :
  select_unassigned_variable c rnd a d k = Ok (var, k') →
  ∀ v, v ∈ variables c → dict_in v a = false →
       domain_size d v = domain_size d var → degree c var ≤ degree c v.
Proof.
  intros Hsel v Hv Hva.
  apply select_unassigned_variable_Ok in Hsel as (_ & _ & _ & Hdeg).
  by apply Hdeg.
Qed.

Lemma select_unassigned_variable_least_degree_witness :
  degree (chain vocab1) slotC ≤ degree (chain vocab1) slotB.
Proof.
  apply (select_unassigned_variable_least_degree (chain vocab1) rnd0 [] store1 0
           slotC 1 ltac:(vm_compute; reflexivity) slotB).
  - right. left.
  - reflexivity.
  - reflexivity.
Defined.

(** *** [order_domain_values] *)

Lemma dict_set_fresh {K V} {eqK : EqDecision K} (k : K) (v : V) m :
  k ∉ m.*1 → dict_set k v m = m ++ [(k, v)].
Proof.
  induction m as [|[k0 v0] m IH]; simpl; [done|].
  rewrite not_elem_of_cons. intros [Hne Hnin].
  rewrite decide_False by done. by rewrite IH.
Qed.

Lemma insert_by_value_perm {A} (x : A * nat) l : insert_by_value x l ≡ₚ x :: l.
Proof.
  induction l as [|y l IH]; simpl; [done|].
  destruct (x.2 <=? y.2); [done|]. rewrite IH. apply Permutation_swap.
Qed.

Lemma sorted_by_value_perm {A} (l : list (A * nat)) : sorted_by_value l ≡ₚ l.
Proof.
  induction l as [|x l IH]; simpl; [done|].
  by rewrite insert_by_value_perm, IH.
Qed.

Lemma unordered_values_keys c d var a dv m0 m :
  foldM (λ m varWord, n ← count_for c d var a varWord; Ok (dict_set varWord n m))
        m0 dv = Ok m →
  (∀ w, w ∈ m.*1 ↔ w ∈ m0.*1 ∨ w ∈ dv) ∧
  (NoDup (m0.*1 ++ dv) → m.*1 = m0.*1 ++ dv).
Proof.
  revert m0. induction dv as [|w dv IH]; intros m0 H.
  - inv_Ok H. split; [|by rewrite app_nil_r].
    intros w. rewrite elem_of_nil. tauto.
  - simpl in H. inv_bind H as m1 Hm1. inv_bind Hm1 as n Hn. inv_Ok Hm1.
    destruct (IH _ H) as [Hkeys Hnd]. split.
    + intros w'. rewrite Hkeys, dict_set_keys, elem_of_cons. tauto.
    + intros Hdup. rewrite Hnd.
      * rewrite dict_set_fresh.
        -- by rewrite fmap_app, <- app_assoc.
        -- apply NoDup_app in Hdup as (_ & Hdis & _). intros Hw.
           apply (Hdis w Hw). left.
      * rewrite dict_set_fresh.
        -- rewrite fmap_app, <- app_assoc. done.
        -- apply NoDup_app in Hdup as (_ & Hdis & _). intros Hw.
           apply (Hdis w Hw). left.
Qed.

Lemma order_domain_values_elem c d var a values :
  order_domain_values c d var a = Ok values →
  ∃ dv, d !! var = Some dv ∧ (∀ w, w ∈ values ↔ w ∈ dv) ∧
        (NoDup dv → values ≡ₚ dv).
Proof.
  unfold order_domain_values. intros H.
  inv_bind H as dv Hdv. apply getitem_Ok in Hdv.
  inv_bind H as m Hm. inv_Ok H.
  destruct (unordered_values_keys _ _ _ _ _ _ _ Hm) as [Hkeys Hnd].
  exists dv. split; [done|].
  assert (Hperm : (sorted_by_value m).*1 ≡ₚ m.*1)
    by (by rewrite sorted_by_value_perm).
  split.
  - intros w. rewrite Hperm, Hkeys. simpl. rewrite elem_of_nil. tauto.
  - intros Hdup. rewrite Hperm. by rewrite Hnd.
Qed.

(** [order_domain_values] returns the words of the domain of [var] and
    nothing else; when the domain has no repeated word (it is a set), the
    result is a rearrangement of it. *)
Theorem order_domain_values_rearranges c d var a values :
  order_domain_values c d var a = Ok values →
  ∃ dv, d !! var = Some dv ∧
    (∀ w, w ∈ values ↔ w ∈ dv) ∧
    (NoDup dv → values ≡ₚ dv).
Proof. apply order_domain_values_elem. Qed.

Lemma order_domain_values_rearranges_witness :
  ∃ dv, store_lcv !! slotA = Some dv ∧
    (∀ w, w ∈ ["CD"; "AB"] ↔ w ∈ dv) ∧
    (NoDup dv → ["CD"; "AB"] ≡ₚ dv).
Proof.
  apply (order_domain_values_rearranges (chain vocab_lcv) store_lcv slotA []).
  vm_compute. reflexivity.
Defined.

(** The order of the result: a value comes before another only if it has
    no more compatible words in the domains of the neighbors without a
    word, that is, no fewer incompatible ones. *)
Theorem order_domain_values_most_constraining_first c d var a values i j w1 w2 :
  order_domain_values c d var a = Ok values →
  i < j → values !! i = Some w1 → values !! j = Some w2 →
  support_count c d var a w1 ≤ support_count c d var a w2 ∧
  conflict_count c d var a w2 ≤ conflict_count c d var a w1.
Proof. apply order_domain_values_Ok. Qed.

Lemma order_domain_values_most_constraining_first_witness :
  support_count (chain vocab_lcv) store_lcv slotA [] "CD" ≤
    support_count (chain vocab_lcv) store_lcv slotA [] "AB" ∧
  conflict_count (chain vocab_lcv) store_lcv slotA [] "AB" ≤
    conflict_count (chain vocab_lcv) store_lcv slotA [] "CD".
Proof.
  apply (order_domain_values_most_constraining_first
           (chain vocab_lcv) store_lcv slotA [] ["CD"; "AB"] 0 1 "CD" "AB").
  - vm_compute. reflexivity.
  - lia.
  - reflexivity.
  - reflexivity.
Defined.

(** ** [consistent] *)

Lemma dict_get_of_elem {K V} {eqK : EqDecision K} (m : list (K * V)) k v :
  NoDup m.*1 → (k, v) ∈ m → dict_get k m = Some v.
Proof.
  induction m as [|[k0 v0] m IH]; simpl; intros Hnd Hin.
  - by apply not_elem_of_nil in Hin.
  - apply NoDup_cons in Hnd as [Hk0 Hnd].
    apply elem_of_cons in Hin as [Heq|Hin].
    + inv_Ok Heq. by rewrite decide_True.
    + rewrite decide_False; [by apply IH|].
      intros ->. apply Hk0. apply list_elem_of_fmap. by exists (k, v).
Qed.

Lemma NoDup_remove_dups_id {A} {eqA : EqDecision A} (l : list A) :
  NoDup l → remove_dups l = l.
Proof.
  induction 1 as [|x l Hx Hnd IH]; simpl; [done|].
  destruct (decide_rel elem_of x l); [done|]. by rewrite IH.
Qed.

Lemma distinct_words_NoDup (a : Assignment) :
  NoDup a.*1 → distinct_words a → NoDup a.*2.
Proof.
  induction a as [|[k v] a IH]; simpl; intros Hnd Hdist; [constructor|].
  pose proof Hnd as Hnd0.
  apply NoDup_cons in Hnd as [Hk Hnd]. constructor.
  - intros ([k' v'] & Heq & Hin)%list_elem_of_fmap. simpl in Heq. subst v'.
    assert (k' ≠ k) as Hne.
    { intros ->. apply Hk. apply list_elem_of_fmap. by exists (k, v). }
    apply (Hdist k k' v v); [by intros -> | | | done].
    + simpl. by rewrite decide_True.
    + apply (dict_get_of_elem ((k, v) :: a)); [done|]. by right.
  - apply IH; [done|]. intros x y wx wy Hxy Hx Hy.
    assert (x ≠ k ∧ y ≠ k) as [Hxk Hyk].
    { split; intros ->; apply Hk; apply dict_get_is_Some; eauto. }
    apply (Hdist x y wx wy Hxy); simpl; by rewrite decide_False.
Qed.

Lemma subscript_Ok w k ch : subscript w k = Ok ch ↔ String.get k w = Some ch.
Proof. unfold subscript. destruct (String.get k w); split; congruence. Qed.

Lemma consistent_neighbors_pass c a var ns w :
  dict_get var a = Some w →
  (∀ y, y ∈ ns → is_Some (dict_get y a)) →
  (∀ y ix iy, y ∈ ns → overlaps c var y = Some (ix, iy) →
     ∃ wy ch, dict_get y a = Some wy ∧
       String.get ix w = Some ch ∧ String.get iy wy = Some ch) →
  consistent_neighbors c a var ns = Ok true.
Proof.
  intros Hvar. induction ns as [|n ns IH]; intros Hdef Hov; [done|].
  simpl. destruct (Hdef n) as [wn Hwn]; [left|].
  rewrite (proj2 (dict_getitem_Ok _ _ _) Hwn). simpl.
  assert (Hrest : consistent_neighbors c a var ns = Ok true).
  { apply IH.
    - intros y Hy. apply Hdef. by right.
    - intros y ix iy Hy. apply Hov. by right. }
  destruct (overlaps c var n) as [[ix iy]|] eqn:Hovn; [|done].
  destruct (Hov n ix iy) as (wy & ch & Hwy & Hgx & Hgy); [left|done|].
  simplify_eq.
  rewrite (proj2 (dict_getitem_Ok _ _ _) Hvar). simpl.
  rewrite (proj2 (subscript_Ok _ _ _) Hgx). simpl.
  rewrite (proj2 (subscript_Ok _ _ _) Hgy). simpl.
  by rewrite Ascii.eqb_refl.
Qed.

Lemma consistent_True_iff_aux c a :
  NoDup a.*1 →
  consistent c a = Ok true ↔
    (∀ x y, x ∈ a.*1 → y ∈ neighbors c x → y ∈ a.*1) ∧
    distinct_words a ∧ lengths_match a ∧ overlaps_satisfied c a.
Proof.
  intros Hnd. split.
  - intros H. pose proof (consistent_true _ _ H) as (Hd & Hl & Ho).
    split_and!; [|done..].
    intros x y Hx Hy. pose proof (consistent_loop_true _ _ _ H x Hx)
      as (_ & _ & Hn).
    clear -Hn Hy. revert Hn Hy. generalize (neighbors c x) as ns.
    induction ns as [|n ns IH]; intros Hn Hy.
    + by apply not_elem_of_nil in Hy.
    + simpl in Hn. inv_bind Hn as wn Hwn. apply dict_getitem_Ok in Hwn.
      apply elem_of_cons in Hy as [->|Hy].
      * apply dict_get_is_Some. eauto.
      * apply IH; [|done]. destruct (overlaps c x n) as [[ix iy]|]; [|done].
        inv_bind Hn as wv Hwv. inv_bind Hn as cv Hcv. inv_bind Hn as cn Hcn.
        by destruct (negb _).
  - intros (Hnb & Hd & Hl & Ho). unfold consistent.
    assert (Hrep : repeated_value a = false).
    { unfold repeated_value.
      rewrite (NoDup_remove_dups_id a.*2) by by apply distinct_words_NoDup.
      by rewrite Nat.eqb_refl. }
    assert (Hgen : ∀ vars, (∀ v, v ∈ vars → v ∈ a.*1) →
                           consistent_loop c a vars = Ok true).
    { induction vars as [|var vars IH]; intros Hsub; [done|].
      simpl. rewrite Hrep.
      destruct (proj2 (dict_get_is_Some var a)) as [w Hw]; [apply Hsub; left|].
      rewrite (proj2 (dict_getitem_Ok _ _ _) Hw). simpl.
      rewrite bool_decide_eq_false_2 by (rewrite (Hl var w Hw); auto).
      rewrite (consistent_neighbors_pass c a var (neighbors c var) w Hw).
      - simpl. apply IH. intros v Hv. apply Hsub. by right.
      - intros y Hy. apply dict_get_is_Some. apply (Hnb var); [|done].
        apply Hsub. left.
      - intros y ix iy Hy Hov. by apply (Ho var y w ix iy). }
    by apply Hgen.
Qed.

(** [consistent] answers [True] exactly on the assignments, with a word for
    every neighbor of every variable they hold, in which different
    variables hold different words, every word has the length of its slot
    and every variable agrees with its neighbors at their overlap. *)
Theorem consistent_True_iff c a :
  NoDup a.*1 →
  consistent c a = Ok true ↔
    (∀ x y, x ∈ a.*1 → y ∈ neighbors c x → y ∈ a.*1) ∧
    distinct_words a ∧ lengths_match a ∧ overlaps_satisfied c a.
Proof. apply consistent_True_iff_aux. Qed.

Lemma consistent_True_iff_witness :
  let a := [(slotC, "CCCC"); (slotB, "BXC"); (slotA, "AB")] in
  consistent (chain vocab1) a = Ok true ↔
    (∀ x y, x ∈ a.*1 → y ∈ neighbors (chain vocab1) x → y ∈ a.*1) ∧
    distinct_words a ∧ lengths_match a ∧ overlaps_satisfied (chain vocab1) a.
Proof.
  intros a. apply (consistent_True_iff (chain vocab1) a).
  refine (bool_decide_unpack _ _). vm_compute. exact I.
Defined.

(** On an assignment that leaves the first neighbor of its first variable
    without a word, and is otherwise in order up to there, [consistent]
    does not answer: looking that neighbor up is a [KeyError]. *)
Theorem consistent_partial_KeyError c x w a n ns :
  repeated_value ((x, w) :: a) = false →
  var_length x = String.length w →
  neighbors c x = n :: ns → dict_in n ((x, w) :: a) = false →
  consistent c ((x, w) :: a) = Raise KeyError.
Proof.
  intros Hrep Hlen Hn Hin. unfold consistent. simpl. rewrite Hrep.
  unfold dict_getitem at 1. simpl. rewrite decide_True by done. simpl.
  rewrite bool_decide_eq_false_2 by auto.
  rewrite Hn. simpl. apply dict_in_false in Hin.
  unfold dict_getitem. by rewrite Hin.
Qed.

Lemma consistent_partial_KeyError_witness :
  consistent (chain vocab1) [(slotA, "AB")] = Raise KeyError.
Proof.
  apply (consistent_partial_KeyError (chain vocab1) slotA "AB" [] slotB []);
    reflexivity.
Defined.

(** ** What [backtrack] returns *)


Lemma extends_set (a : Assignment) var value :
  dict_in var a = false → extends a (dict_set var value a).
Proof.
  intros Hvar v w Hv. rewrite dict_get_set.
  destruct (decide (var = v)) as [->|?]; [|done].
  apply dict_in_false in Hvar. congruence.
Qed.

(** The loop over the candidate values, when it returns an assignment:
    [inv] is a property of the store that the pass of [ac3] keeps. *)
Lemma try_values_Some_inv c (rec : Search) (inv : Store → Prop)
    (P : Assignment → Prop) a selectedVar values st r st' :
  (∀ d b d', inv d →
     ac3 c (Some (map (pair selectedVar) (neighbors c selectedVar))) d = Ok (b, d') →
     inv d') →
  (∀ a1 st0 st1, rec a1 st0 = Ok (None, st1) → domains st1 = domains st0) →
  (∀ value st0 r0 st1, value ∈ values → inv (domains st0) →
     rec (dict_set selectedVar value a) st0 = Ok (Some r0, st1) → P r0) →
  inv (domains st) →
  try_values c rec a selectedVar values st = Ok (Some r, st') → P r.
Proof.
  intros Hac3 Hnone Hsome. revert st.
  induction values as [|value values IH]; intros st Hinv H; [done|].
  simpl in H. inv_bind H as res Hres. destruct res as [res st0].
  unfold try_value in Hres. inv_bind Hres as p Hp. destruct p as [b d'].
  pose proof (Hac3 _ _ _ Hinv Hp) as Hinv'.
  destruct res as [r0|].
  - inv_Ok H. eapply (Hsome value); [left| |done]. done.
  - apply Hnone in Hres. simpl in Hres.
    apply IH in H; [done| |by rewrite Hres].
    intros value0 st1 r1 st2 Hin. apply Hsome. by right.
Qed.

Lemma backtrack_Some_extends c rnd fuel a st r st' :
  backtrack c rnd fuel a st = Ok (Some r, st') → extends a r.
Proof.
  revert a st r st'.
  induction fuel as [|fuel IH]; intros a st r st' H; [done|].
  simpl in H. destruct (assignment_complete c a) eqn:Hc.
  - inv_bind H as ok Hok. destruct ok; [|done]. inv_Ok H. by intros v w.
  - inv_bind H as sel Hsel. destruct sel as [selectedVar k].
    apply select_unassigned_variable_Ok in Hsel as ([_ Hun] & _).
    inv_bind H as savedDomain Hsaved. inv_bind H as values Hvalues.
    inv_bind H as res Hres. destruct res as [[r0|] st0]; [|done].
    inv_Ok H. revert Hres.
    apply (try_values_Some_inv c _ (λ _, True) (extends a)); [done| | |done].
    + intros a1 st1 st2. apply backtrack_None_restores.
    + intros value st1 r1 st2 _ _ Hrec v w Hv.
      apply (IH _ _ _ _ Hrec). by apply extends_set.
Qed.

(** [backtrack] keeps the words it is given: an assignment it returns has
    every binding of the assignment it was called with. *)
Theorem backtrack_keeps_assigned_words c rnd fuel a st r st' v w :
  backtrack c rnd fuel a st = Ok (Some r, st') →
  dict_get v a = Some w → dict_get v r = Some w.
Proof. intros H. by apply (backtrack_Some_extends _ _ _ _ _ _ _ H). Qed.

Lemma backtrack_keeps_assigned_words_witness :
  dict_get slotC [(slotC, "CCCC"); (slotB, "BXC"); (slotA, "AB")] = Some "CCCC".
Proof.
  apply (backtrack_keeps_assigned_words (chain vocab1) rnd0 3
           [(slotC, "CCCC")] (mkSolver store1 1 1)
           [(slotC, "CCCC"); (slotB, "BXC"); (slotA, "AB")]
           (mkSolver (<[slotA := ["AB"]]> store1) 2 5) slotC "CCCC").
  - vm_compute. reflexivity.
  - reflexivity.
Defined.


Lemma ac3_within_vocabulary c arcs d b d' :
  within_vocabulary c d → ac3 c arcs d = Ok (b, d') → within_vocabulary c d'.
Proof.
  intros Hd H v dv' w Hv Hw.
  destruct (ac3_sublists _ _ _ _ _ H v dv' Hv) as (dv & Hdv & Hsub).
  apply (Hd v dv w Hdv). by eapply elem_of_sublist.
Qed.

Lemma backtrack_Some_vocabulary c rnd fuel a st r st' :
  within_vocabulary c (domains st) →
  (∀ v w, dict_get v a = Some w → w ∈ words c) →
  backtrack c rnd fuel a st = Ok (Some r, st') →
  ∀ v w, dict_get v r = Some w → w ∈ words c.
Proof.
  revert a st r st'.
  induction fuel as [|fuel IH]; intros a st r st' Hst Ha H; [done|].
  simpl in H. destruct (assignment_complete c a) eqn:Hc.
  - inv_bind H as ok Hok. destruct ok; [|done]. by inv_Ok H.
  - inv_bind H as sel Hsel. destruct sel as [selectedVar k].
    inv_bind H as savedDomain Hsaved. inv_bind H as values Hvalues.
    apply order_domain_values_elem in Hvalues as (dv & Hdv & Hval & _).
    simpl in Hdv.
    inv_bind H as res Hres. destruct res as [[r0|] st0]; [|done].
    inv_Ok H. revert Hres.
    apply (try_values_Some_inv c _ (within_vocabulary c)
             (λ r, ∀ v w, dict_get v r = Some w → w ∈ words c)); [| | |done].
    + intros d b d' Hd Hac3. by eapply ac3_within_vocabulary.
    + intros a1 st1 st2. apply backtrack_None_restores.
    + intros value st1 r1 st2 Hin Hst1 Hrec.
      refine (IH _ _ _ _ Hst1 _ Hrec).
      intros v w. rewrite dict_get_set.
      destruct (decide (selectedVar = v)) as [->|?]; [|by apply Ha].
      intros Heq. inv_Ok Heq. eapply Hst; [exact Hdv | by apply Hval].
Qed.


Lemma init_domains_None c v : v ∉ variables c → init_domains c !! v = None.
Proof.
  unfold init_domains.
  assert (Hgen : ∀ l (d : Store), v ∉ l → d !! v = None →
            foldl (λ d var, <[var := words c]> d) d l !! v = None).
  { induction l as [|x l IH]; intros d Hl Hd; [done|]. simpl.
    rewrite not_elem_of_cons in Hl. destruct Hl as [Hne Hl].
    apply IH; [done|]. by rewrite lookup_insert_ne. }
  intros Hv. by apply Hgen.
Qed.

Lemma start_within_vocabulary c d1 :
  enforce_node_consistency c (init_domains c) = Ok d1 → within_vocabulary c d1.
Proof.
  intros H v dv w Hv Hw.
  destruct (enforce_node_consistency_filter _ _ _ H) as [Hin Hout].
  destruct (decide (v ∈ variables c)) as [Hvar|Hvar].
  - destruct (Hin v Hvar) as (dv0 & Hdv0 & Hd1).
    rewrite init_domains_lookup in Hdv0 by done. simplify_eq.
    by apply list_elem_of_filter in Hw as [_ ?].
  - rewrite (Hout v Hvar), init_domains_None in Hv by done. done.
Qed.

(** [solve] only uses the vocabulary: every word of an assignment it
    returns is a word of [crossword.words]. *)
Theorem solve_words_from_vocabulary c rnd a st v w :
  solve c rnd = Ok (Some a, st) → dict_get v a = Some w → w ∈ words c.
Proof.
  unfold solve. intros H.
  inv_bind H as d1 Hd1. inv_bind H as p Hp. destruct p as [b d2].
  intros Hv. refine (backtrack_Some_vocabulary _ _ _ _ _ _ _ _ _ H v w Hv); [|done].
  simpl. eapply ac3_within_vocabulary; [|done].
  by apply start_within_vocabulary.
Qed.

Lemma solve_words_from_vocabulary_witness : "BXC" ∈ words (chain vocab1).
Proof.
  apply (solve_words_from_vocabulary (chain vocab1) rnd0
           [(slotC, "CCCC"); (slotB, "BXC"); (slotA, "AB")]
           (mkSolver (<[slotA := ["AB"]]> store1) 2 5) slotB "BXC").
  - vm_compute. reflexivity.
  - reflexivity.
Defined.

(** ** [solve] raises nothing on a well-formed model *)

Lemma string_get_lt w k : k < String.length w → is_Some (String.get k w).
Proof.
  revert k. induction w as [|ch w IH]; intros k Hk; simpl in *; [lia|].
  destruct k as [|k]; [eauto|]. apply IH. lia.
Qed.

Lemma overlap_eq_total ix iy wx wy :
  ix < String.length wx → iy < String.length wy →
  ∃ b, overlap_eq (Some (ix, iy)) wx wy = Ok b.
Proof.
  intros [cx Hx]%string_get_lt [cy Hy]%string_get_lt.
  unfold overlap_eq, subscript. rewrite Hx, Hy. simpl. eauto.
Qed.

Lemma foldM_total {A S} (inv : S → Prop) (f : S → A → outcome S) s l :
  inv s →
  (∀ s a, inv s → a ∈ l → ∃ s', f s a = Ok s' ∧ inv s') →
  ∃ s', foldM f s l = Ok s' ∧ inv s'.
Proof.
  revert s. induction l as [|x l IH]; intros s Hs Hf; simpl; [eauto|].
  destruct (Hf s x Hs) as (s1 & -> & Hs1); [left|]. simpl.
  apply IH; [done|]. intros s0 a Hs0 Ha. apply Hf; [done | by right].
Qed.

Lemma node_consistent_insert c (d : Store) x dx domain :
  node_consistent c d → d !! x = Some dx → (∀ w, w ∈ domain → w ∈ dx) →
  node_consistent c (<[x := domain]> d).
Proof.
  intros Hd Hx Hsub v Hv. destruct (decide (v = x)) as [->|Hne].
  - rewrite lookup_insert_eq. eexists. split; [done|].
    intros w Hw%Hsub. destruct (Hd x Hv) as (dv & Hdv & Hlen).
    simplify_eq. auto.
  - rewrite lookup_insert_ne by done. auto.
Qed.

Lemma revise_well_formed c x y d :
  well_formed c → node_consistent c d →
  x ∈ variables c → y ∈ neighbors c x →
  ∃ d', revise c x y d = Ok (false, d') ∧ node_consistent c d'.
Proof.
  intros Hwf Hd Hx Hy.
  destruct (Hwf x y Hx Hy) as (Hyv & ix & iy & Hov & Hix & Hiy).
  destruct (Hd x Hx) as (dx & Hdx & Hlx).
  destruct (Hd y Hyv) as (dy & Hdy & Hly).
  destruct (filterM_total (has_overlap_word d (overlaps c x y) y) dx)
    as [domain Hdomain].
  { intros w Hw. unfold has_overlap_word.
    rewrite (proj2 (getitem_Ok _ _ _) Hdy). simpl.
    destruct (filterM_total (overlap_eq (overlaps c x y) w) dy) as [ows ->];
      [|simpl; eauto].
    intros wy Hwy. rewrite Hov. apply overlap_eq_total.
    - by rewrite (Hlx w Hw).
    - by rewrite (Hly wy Hwy). }
  exists (<[x := domain]> d). split.
  - unfold revise. rewrite (proj2 (getitem_Ok _ _ _) Hdx). cbn [mbind outcome_bind].
    rewrite Hdomain. cbn [mbind outcome_bind].
    unfold getitem. rewrite lookup_insert_eq. cbn [mbind outcome_bind].
    by rewrite Nat.eqb_refl.
  - apply (node_consistent_insert c d x dx); [done..|].
    intros w Hw. by apply (filterM_elem _ _ _ Hdomain) in Hw as [? _].
Qed.

Lemma all_arcs_proper c : proper_arcs c (all_arcs c).
Proof.
  intros arc (x & Harc & Hx)%list_elem_of_bind.
  by apply list_elem_of_fmap in Harc as (y & -> & Hy).
Qed.

Lemma arcs_from_proper c x :
  x ∈ variables c → proper_arcs c (map (pair x) (neighbors c x)).
Proof. intros Hx arc (y & -> & Hy)%list_elem_of_fmap. done. Qed.

Lemma ac3_well_formed c arcs d :
  well_formed c → node_consistent c d → proper_arcs c (initial_queue c arcs) →
  ∃ d', ac3 c arcs d = Ok (true, d') ∧ node_consistent c d'.
Proof.
  intros Hwf Hd Harcs. rewrite ac3_fold_revise.
  destruct (foldM_total (node_consistent c)
              (λ d arc, r ← revise c arc.1 arc.2 d; Ok r.2)
              d (initial_queue c arcs)) as (d' & -> & Hd'); [done| |eauto].
  intros d0 [x y] Hd0 [Hx Hy]%Harcs. simpl in *.
  destruct (revise_well_formed c x y d0) as (d1 & -> & Hd1); [done..|].
  simpl. eauto.
Qed.

Lemma order_domain_values_well_formed c d var a :
  well_formed c → node_consistent c d → var ∈ variables c →
  ∃ values, order_domain_values c d var a = Ok values.
Proof.
  intros Hwf Hd Hvar. unfold order_domain_values.
  destruct (Hd var Hvar) as (dv & Hdv & Hlen).
  rewrite (proj2 (getitem_Ok _ _ _) Hdv). simpl.
  destruct (foldM_total (λ _ : list (string * nat), True)
              (λ m varWord, n ← count_for c d var a varWord;
                            Ok (dict_set varWord n m)) [] dv)
    as (m & -> & _); [done| |simpl; eauto].
  intros m w _ Hw. unfold count_for.
  destruct (foldM_total (λ _ : nat, True)
    (λ n neighbor,
       if dict_in neighbor a then Ok n
       else dn ← getitem d neighbor;
            foldM (λ n neighborWord,
                     b ← overlap_eq (overlaps c var neighbor) w neighborWord;
                     Ok (if b : bool then S n else n)) n dn)
    0 (neighbors c var)) as (n & -> & _); [done| |simpl; eauto].
  intros n0 nb _ Hnb. destruct (dict_in nb a); [eauto|].
  destruct (Hwf var nb Hvar Hnb) as (Hnbv & ix & iy & Hov & Hix & Hiy).
  destruct (Hd nb Hnbv) as (dn & Hdn & Hln).
  rewrite (proj2 (getitem_Ok _ _ _) Hdn). simpl.
  apply (foldM_total (λ _ : nat, True)); [done|].
  intros n1 wn _ Hwn. rewrite Hov.
  destruct (overlap_eq_total ix iy w wn) as [b ->]; [| |simpl; eauto].
  - by rewrite (Hlen w Hw).
  - by rewrite (Hln wn Hwn).
Qed.

Lemma consistent_well_formed c a :
  well_formed c → fits c a → complete c a → ∃ b, consistent c a = Ok b.
Proof.
  intros Hwf [_ Hfit] Hc. unfold consistent.
  assert (Hgen : ∀ vars, (∀ v, v ∈ vars → v ∈ a.*1) →
                         ∃ b, consistent_loop c a vars = Ok b).
  { induction vars as [|var vars IH]; intros Hsub; simpl; [eauto|].
    destruct (repeated_value a); [eauto|].
    destruct (proj2 (dict_get_is_Some var a)) as [w Hw]; [apply Hsub; left|].
    destruct (Hfit var w Hw) as [Hvar Hlen].
    rewrite (proj2 (dict_getitem_Ok _ _ _) Hw). simpl.
    case_bool_decide; [eauto|].
    assert (Hn : ∀ ns, (∀ n, n ∈ ns → n ∈ neighbors c var) →
                       ∃ b, consistent_neighbors c a var ns = Ok b).
    { induction ns as [|n ns IHn]; intros Hns; simpl; [eauto|].
      destruct (Hwf var n Hvar) as (Hnv & ix & iy & Hov & Hix & Hiy);
        [apply Hns; left|].
      destruct (Hc n Hnv) as [wn Hwn]. destruct (Hfit n wn Hwn) as [_ Hln].
      rewrite (proj2 (dict_getitem_Ok _ _ _) Hwn). simpl. rewrite Hov.
      rewrite (proj2 (dict_getitem_Ok _ _ _) Hw). simpl.
      destruct (string_get_lt w ix) as [cv Hcv]; [lia|].
      destruct (string_get_lt wn iy) as [cn Hcn]; [lia|].
      rewrite (proj2 (subscript_Ok _ _ _) Hcv). simpl.
      rewrite (proj2 (subscript_Ok _ _ _) Hcn). simpl.
      destruct (negb _); [eauto|]. apply IHn. intros n0 Hn0. apply Hns. by right. }
    destruct (Hn (neighbors c var)) as [b ->]; [done|]. simpl.
    destruct b; [|eauto]. apply IH. intros v Hv. apply Hsub. by right. }
  by apply Hgen.
Qed.

Lemma fits_set c a var value :
  fits c a → unassigned c a var → String.length value = var_length var →
  fits c (dict_set var value a).
Proof.
  intros [Hnd Hfit] [Hvar Hun] Hlen. split.
  - rewrite dict_set_fresh.
    + rewrite fmap_app. simpl. apply NoDup_app. split_and!; [done| |].
      * intros v Hv ->%list_elem_of_singleton.
        apply dict_in_false in Hun. apply dict_get_is_Some in Hv as [? ?].
        congruence.
      * apply NoDup_singleton.
    + intros Hin%dict_get_is_Some. apply dict_in_false in Hun.
      destruct Hin. congruence.
  - intros v w. rewrite dict_get_set.
    destruct (decide (var = v)) as [<-|?]; [|by apply Hfit].
    intros Heq. by inv_Ok Heq.
Qed.

Lemma node_consistent_keys c d :
  node_consistent c d → ∀ v, v ∈ variables c → is_Some (d !! v).
Proof. intros Hd v Hv. destruct (Hd v Hv) as (dv & -> & _). eauto. Qed.

Lemma node_consistent_domains c d d' :
  d' = d → node_consistent c d → node_consistent c d'.
Proof. by intros ->. Qed.

(** The loop over the candidate values returns whenever the recursive call
    does. *)
Lemma try_values_well_formed c (rec : Search) a selectedVar values st :
  well_formed c → selectedVar ∈ variables c →
  (∀ a1 st0 st1, rec a1 st0 = Ok (None, st1) → domains st1 = domains st0) →
  (∀ value st0, value ∈ values → node_consistent c (domains st0) →
     ∃ r st1, rec (dict_set selectedVar value a) st0 = Ok (r, st1)) →
  node_consistent c (domains st) →
  ∃ r st', try_values c rec a selectedVar values st = Ok (r, st').
Proof.
  intros Hwf Hvar Hnone Hrec. revert st.
  induction values as [|value values IH]; intros st Hst; simpl; [eauto|].
  unfold try_value.
  destruct (ac3_well_formed c
              (Some (map (pair selectedVar) (neighbors c selectedVar)))
              (domains st)) as (d' & -> & Hd'); [done..| |].
  { by apply arcs_from_proper. }
  cbn [mbind outcome_bind].
  destruct (Hrec value (with_domains st d')) as ([r|] & st1 & Hr); [left|done| |].
  - rewrite Hr. simpl. eauto.
  - rewrite Hr. simpl. apply IH.
    + intros value0 st0 Hin. apply Hrec. by right.
    + apply Hnone in Hr. by rewrite Hr.
Qed.

Lemma backtrack_well_formed c rnd fuel a st :
  well_formed c → unassigned_count c a < fuel →
  node_consistent c (domains st) → fits c a →
  ∃ r st', backtrack c rnd fuel a st = Ok (r, st').
Proof.
  intros Hwf. revert a st.
  induction fuel as [|fuel IH]; intros a st Hfuel Hst Hfit; [lia|].
  simpl. destruct (assignment_complete c a) eqn:Hc.
  - apply assignment_complete_true in Hc.
    destruct (consistent_well_formed c a Hwf Hfit Hc) as [b ->]. simpl. eauto.
  - destruct (select_unassigned_variable_total c rnd a (domains st) (draws st))
      as (var & k & Hsel); [by apply node_consistent_keys|done|].
    rewrite Hsel. cbn [mbind outcome_bind].
    apply select_unassigned_variable_Ok in Hsel as (Hun & _).
    pose proof Hun as [Hvar _].
    destruct (Hst var Hvar) as (dv & Hdv & Hlen). simpl.
    rewrite (proj2 (getitem_Ok _ _ _) Hdv). cbn [mbind outcome_bind].
    destruct (order_domain_values_well_formed c (domains st) var a)
      as [values Hvalues]; [done..|].
    rewrite Hvalues. cbn [mbind outcome_bind].
    apply order_domain_values_elem in Hvalues as (dv' & Hdv' & Hval & _).
    simplify_eq.
    destruct (try_values_well_formed c (backtrack c rnd fuel) a var values
                (mkSolver (domains st) k (S (calls st))))
      as (r & st' & ->); [done..| | |done|].
    + intros a1 st0 st1. apply backtrack_None_restores.
    + intros value st0 Hin Hst0. apply IH; [|done|].
      * pose proof (unassigned_count_set c a var value Hun). lia.
      * apply fits_set; [done..|]. apply Hlen. by apply Hval.
    + simpl. destruct r; eauto.
Qed.

Lemma fits_nil c : fits c [].
Proof. split; [constructor | done]. Qed.

Lemma start_node_consistent c d1 :
  enforce_node_consistency c (init_domains c) = Ok d1 → node_consistent c d1.
Proof.
  intros H v Hv.
  destruct (proj1 (enforce_node_consistency_filter _ _ _ H) v Hv) as (dv & _ & ->).
  eexists. split; [done|]. by intros w [? _]%list_elem_of_filter.
Qed.

Lemma solve_well_formed c rnd :
  well_formed c → ∃ r st, solve c rnd = Ok (r, st).
Proof.
  intros Hwf. unfold solve.
  destruct (init_node_consistent c) as (d1 & Hd1 & _).
  rewrite Hd1. cbn [mbind outcome_bind].
  destruct (ac3_well_formed c None d1) as (d2 & -> & Hd2);
    [done|by apply start_node_consistent|apply all_arcs_proper|].
  cbn [mbind outcome_bind].
  apply backtrack_well_formed; [done| |done|apply fits_nil].
  pose proof (unassigned_count_le c []). lia.
Qed.

(** A [puzzle] is well formed. *)
Lemma cells_length v : length (cells v) = var_length v.
Proof. unfold cells. by rewrite length_map, length_seq. Qed.

Lemma crossing_bounds x y ix iy :
  crossing x y = Some (ix, iy) → ix < var_length x ∧ iy < var_length y.
Proof.
  unfold crossing. destruct (decide (x = y)); [done|].
  destruct (list_find _ (cells x)) as [[jx cell]|] eqn:Hfx; [|done]. simpl.
  destruct (list_find _ (cells y)) as [[jy cell']|] eqn:Hfy; [|done]. simpl.
  intros H. inv_Ok H.
  apply list_find_Some in Hfx as (Hx & _). apply list_find_Some in Hfy as (Hy & _).
  apply lookup_lt_Some in Hx, Hy. by rewrite !cells_length in *.
Qed.

Lemma puzzle_well_formed vars vocabulary : well_formed (puzzle vars vocabulary).
Proof.
  intros x y Hx Hy. simpl in *.
  apply list_elem_of_filter in Hy as [[Hne Hcr] Hy]. split; [done|].
  apply crossing_is_Some in Hcr as (_ & cell & Hcy & Hcx).
  destruct (proj2 (crossing_is_Some x y)) as [[ix iy] Hxy]; [eauto|].
  exists ix, iy. split; [done|]. by apply crossing_bounds.
Qed.

(** On a well-formed model [solve] raises no exception: it returns an
    assignment or [None]. Every [puzzle] is such a model. *)
Theorem solve_never_raises c rnd :
  well_formed c → ∃ r st, solve c rnd = Ok (r, st).
Proof. apply solve_well_formed. Qed.

Lemma solve_never_raises_witness :
  ∃ r st, solve (chain vocab1) rnd0 = Ok (r, st).
Proof.
  apply (solve_never_raises (chain vocab1) rnd0). apply puzzle_well_formed.
Defined.

(** ** [solve] finds a solution when there is one *)

Lemma revise_allows c x y d b d' s :
  well_formed c → overlaps_satisfied c s → allows c d s →
  x ∈ variables c → y ∈ neighbors c x →
  revise c x y d = Ok (b, d') → allows c d' s.
Proof.
  intros Hwf Hov Hd Hx Hy H v Hv.
  apply revise_Ok in H as (_ & dx & domain & Hdx & Hf & ->).
  destruct (decide (v = x)) as [->|Hne];
    [|rewrite lookup_insert_ne by done; by apply Hd].
  rewrite lookup_insert_eq.
  destruct (Hd x Hx) as (dx' & w & Hdx' & Hsx & Hw). simplify_eq.
  exists domain, w. split_and!; [done..|].
  apply (filterM_elem _ _ _ Hf). split; [done|].
  destruct (filterM_defined _ _ _ Hf w Hw) as [[] Hb]; [done|]. exfalso.
  destruct (Hwf x y Hx Hy) as (Hyv & ix & iy & Hxy & _).
  destruct (Hd y Hyv) as (dy & wy & Hdy & Hsy & Hwy).
  apply (has_overlap_word_false d (overlaps c x y) y dy w Hdy Hb).
  destruct (Hov x y w ix iy Hsx Hy Hxy) as (wy' & ch & Hsy' & Hgx & Hgy).
  simplify_eq. by exists wy, ix, iy, ch.
Qed.

Lemma ac3_allows c arcs d b d' s :
  well_formed c → overlaps_satisfied c s → proper_arcs c (initial_queue c arcs) →
  allows c d s → ac3 c arcs d = Ok (b, d') → allows c d' s.
Proof.
  intros Hwf Hov Harcs Hd H. rewrite ac3_fold_revise in H.
  inv_bind H as d1 Hd1. inv_Ok H. revert Hd1.
  apply (foldM_invariant (λ d, allows c d s)); [done|].
  intros d0 [x y] d1 Hd0 [Hx Hy]%Harcs Hstep. simpl in *.
  inv_bind Hstep as r Hr. inv_Ok Hstep. destruct r as [b0 d1].
  by eapply revise_allows.
Qed.

(** A complete assignment that is part of a solution passes [consistent]. *)
Lemma consistent_of_solution c a s :
  well_formed c → solution c s → fits c a → extends a s → complete c a →
  consistent c a = Ok true.
Proof.
  intros Hwf (_ & Hdist & _ & Hov & _) [Hnd Hfit] Hext Hc.
  assert (Hkey : ∀ x, x ∈ a.*1 → x ∈ variables c).
  { intros x [w Hw]%dict_get_is_Some. by apply (Hfit x w). }
  apply (proj2 (consistent_True_iff_aux c a Hnd)). split_and!.
  - intros x y Hx%Hkey Hy. apply dict_get_is_Some, Hc.
    by apply (Hwf x y).
  - intros x y wx wy Hxy Hx%Hext Hy%Hext. by apply (Hdist x y).
  - intros v w Hv. by apply (Hfit v w).
  - intros x y wx ix iy Hx Hy Hxy.
    destruct (Hov x y wx ix iy (Hext _ _ Hx) Hy Hxy) as (wy & ch & Hsy & Hgx & Hgy).
    exists wy, ch. split; [|done].
    assert (x ∈ variables c) as Hxv by (by apply (Hfit x wx)).
    destruct (Hc y) as [w' Hw']; [by apply (Hwf x y)|].
    pose proof (Hext _ _ Hw') as Hs'. congruence.
Qed.

(** The loop over the candidate values finds a solution when the recursive
    call does for the value the solution [s] has. *)
Lemma try_values_finds c (rec : Search) a selectedVar values st s sv :
  well_formed c → overlaps_satisfied c s → selectedVar ∈ variables c →
  (∀ a1 st0 st1, rec a1 st0 = Ok (None, st1) → domains st1 = domains st0) →
  (∀ value st0, value ∈ values → node_consistent c (domains st0) →
     ∃ r st1, rec (dict_set selectedVar value a) st0 = Ok (r, st1)) →
  (∀ st0, node_consistent c (domains st0) → allows c (domains st0) s →
     ∃ r st1, rec (dict_set selectedVar sv a) st0 = Ok (Some r, st1)) →
  sv ∈ values →
  node_consistent c (domains st) → allows c (domains st) s →
  ∃ r st', try_values c rec a selectedVar values st = Ok (Some r, st').
Proof.
  intros Hwf Hov Hvar Hnone Hrec Hfind. revert st.
  induction values as [|value values IH]; intros st Hin Hst Hal.
  - by apply not_elem_of_nil in Hin.
  - simpl. unfold try_value.
    pose proof (arcs_from_proper c selectedVar Hvar) as Harcs.
    destruct (ac3_well_formed c
                (Some (map (pair selectedVar) (neighbors c selectedVar)))
                (domains st)) as (d' & Hac3 & Hd'); [done..|].
    pose proof (ac3_allows c (Some (map (pair selectedVar) (neighbors c selectedVar)))
                  _ _ _ s Hwf Hov Harcs Hal Hac3) as Hal'.
    rewrite Hac3. cbn [mbind outcome_bind].
    destruct (Hrec value (with_domains st d')) as ([r|] & st1 & Hr);
      [left|done| |].
    + rewrite Hr. simpl. eauto.
    + rewrite Hr. simpl. pose proof (Hnone _ _ _ Hr) as Heq. simpl in Heq.
      apply IH.
      * intros value0 st0 Hin0. apply Hrec. by right.
      * apply elem_of_cons in Hin as [->|Hin]; [|done]. exfalso.
        destruct (Hfind (with_domains st d')) as (r & st2 & Hr'); [done..|].
        congruence.
      * by rewrite Heq.
      * by rewrite Heq.
Qed.

Lemma extends_set_solution (a s : Assignment) var sv :
  extends a s → dict_get var s = Some sv → extends (dict_set var sv a) s.
Proof.
  intros Hext Hs v w. rewrite dict_get_set.
  destruct (decide (var = v)) as [<-|?]; [|by apply Hext]. congruence.
Qed.

Lemma backtrack_finds c rnd fuel a st s :
  well_formed c → solution c s →
  unassigned_count c a < fuel →
  node_consistent c (domains st) → allows c (domains st) s →
  fits c a → extends a s →
  ∃ r st', backtrack c rnd fuel a st = Ok (Some r, st').
Proof.
  intros Hwf Hsol. pose proof Hsol as (_ & _ & _ & Hov & _). revert a st.
  induction fuel as [|fuel IH]; intros a st Hfuel Hst Hal Hfit Hext; [lia|].
  simpl. destruct (assignment_complete c a) eqn:Hc.
  - apply assignment_complete_true in Hc.
    rewrite (consistent_of_solution c a s); [simpl; eauto|done..].
  - destruct (select_unassigned_variable_total c rnd a (domains st) (draws st))
      as (var & k & Hsel); [by apply node_consistent_keys|done|].
    rewrite Hsel. cbn [mbind outcome_bind].
    apply select_unassigned_variable_Ok in Hsel as (Hun & _).
    pose proof Hun as [Hvar _].
    destruct (Hst var Hvar) as (dv & Hdv & Hlen). simpl.
    rewrite (proj2 (getitem_Ok _ _ _) Hdv). cbn [mbind outcome_bind].
    destruct (order_domain_values_well_formed c (domains st) var a)
      as [values Hvalues]; [done..|].
    rewrite Hvalues. cbn [mbind outcome_bind].
    apply order_domain_values_elem in Hvalues as (dv' & Hdv' & Hval & _).
    simplify_eq.
    destruct (Hal var Hvar) as (dv' & sv & Hdv' & Hsv & Hin). simplify_eq.
    assert (Hdec : ∀ value, unassigned_count c (dict_set var value a) < fuel).
    { intros value. pose proof (unassigned_count_set c a var value Hun). lia. }
    destruct (try_values_finds c (backtrack c rnd fuel) a var values
                (mkSolver (domains st) k (S (calls st))) s sv)
      as (r & st' & ->); [done..| | | |by apply Hval|done|done|].
    + intros a1 st0 st1. apply backtrack_None_restores.
    + intros value st0 Hv Hst0. apply backtrack_well_formed; [done..|].
      apply fits_set; [done..|]. apply Hlen. by apply Hval.
    + intros st0 Hst0 Hal0. apply IH; [done..| |].
      * apply fits_set; [done..|]. by apply Hlen.
      * by apply extends_set_solution.
    + simpl. eauto.
Qed.

Lemma start_allows c d1 s :
  solution c s →
  enforce_node_consistency c (init_domains c) = Ok d1 → allows c d1 s.
Proof.
  intros (Hc & _ & Hlen & _ & Hvoc) H v Hv.
  destruct (proj1 (enforce_node_consistency_filter _ _ _ H) v Hv) as (dv & Hdv & ->).
  rewrite init_domains_lookup in Hdv by done. simplify_eq.
  destruct (Hc v Hv) as [w Hw]. eexists _, w. split_and!; [done..|].
  apply list_elem_of_filter. split; [by apply Hlen | by apply (Hvoc v)].
Qed.

Lemma solve_finds c rnd s :
  well_formed c → solution c s → ∃ a st, solve c rnd = Ok (Some a, st).
Proof.
  intros Hwf Hsol. pose proof Hsol as (_ & _ & _ & Hov & _). unfold solve.
  destruct (init_node_consistent c) as (d1 & Hd1 & _).
  rewrite Hd1. cbn [mbind outcome_bind].
  destruct (ac3_well_formed c None d1) as (d2 & Hd2 & Hnc);
    [done|by apply start_node_consistent|apply all_arcs_proper|].
  rewrite Hd2. cbn [mbind outcome_bind].
  apply (backtrack_finds c rnd _ [] _ s); [done..| |done| |apply fits_nil|done].
  - pose proof (unassigned_count_le c []). lia.
  - eapply (ac3_allows c None d1); [done..|apply all_arcs_proper| |done].
    by apply start_allows.
Qed.

Lemma solve_Some_solution c rnd a st :
  solve c rnd = Ok (Some a, st) → solution c a.
Proof.
  intros H. pose proof (solve_Some _ _ _ _ H) as [Hc Hk].
  apply assignment_complete_true in Hc.
  apply consistent_true in Hk as (? & ? & ?).
  split_and!; [done..|]. intros v w _ Hv.
  unfold solve in H. inv_bind H as d1 Hd1. inv_bind H as p Hp.
  destruct p as [b d2].
  refine (backtrack_Some_vocabulary _ _ _ _ _ _ _ _ _ H v w Hv); [|done].
  simpl. eapply ac3_within_vocabulary; [|done].
  by apply start_within_vocabulary.
Qed.

(** On a well-formed model [solve] returns an assignment exactly when the
    puzzle has a solution, and what it returns is one. *)
Theorem solve_finds_solution c rnd :
  well_formed c →
  ((∃ s, solution c s) ↔ ∃ a st, solve c rnd = Ok (Some a, st)) ∧
  (∀ a st, solve c rnd = Ok (Some a, st) → solution c a) ∧
  ((¬ ∃ s, solution c s) → ∃ st, solve c rnd = Ok (None, st)).
Proof.
  intros Hwf. split_and!.
  - split.
    + intros [s Hs]. by eapply solve_finds.
    + intros (a & st & H). exists a. by eapply solve_Some_solution.
  - intros a st. apply solve_Some_solution.
  - intros Hno. destruct (solve_well_formed c rnd Hwf) as ([a|] & st & H); [|eauto].
    exfalso. apply Hno. exists a. by eapply solve_Some_solution.
Qed.

Lemma solve_finds_solution_witness :
  ((∃ s, solution (chain vocab1) s) ↔ ∃ a st, solve (chain vocab1) rnd0 = Ok (Some a, st)) ∧
  (∀ a st, solve (chain vocab1) rnd0 = Ok (Some a, st) → solution (chain vocab1) a) ∧
  ((¬ ∃ s, solution (chain vocab1) s) → ∃ st, solve (chain vocab1) rnd0 = Ok (None, st)).
Proof.
  apply (solve_finds_solution (chain vocab1) rnd0). apply puzzle_well_formed.
Defined.

(** ** [letter_grid] *)

Lemma blank_grid_shape height width : has_shape height width (blank_grid height width).
Proof.
  unfold blank_grid. split; [by rewrite length_replicate|].
  intros row [-> _]%elem_of_replicate. by rewrite length_replicate.
Qed.

Lemma grid_set_Ok letters i j ch letters' :
  grid_set letters i j ch = Ok letters' ↔
  ∃ row, letters !! i = Some row ∧ j < length row ∧
         letters' = <[i := <[j := Some ch]> row]> letters.
Proof.
  unfold grid_set. destruct (letters !! i) as [row|]; [|naive_solver].
  case_decide as Hlt; [|naive_solver lia]. split.
  - intros Heq. inv_Ok Heq. eauto.
  - intros (row' & Hrow & _ & ->). by simplify_eq.
Qed.

Lemma grid_set_shape height width letters i j ch letters' :
  has_shape height width letters → grid_set letters i j ch = Ok letters' →
  has_shape height width letters' ∧ i < height ∧ j < width.
Proof.
  intros [Hh Hw] (row & Hrow & Hj & ->)%grid_set_Ok.
  assert (length row = width) as Hlen by (by eapply Hw, list_elem_of_lookup_2).
  split_and!.
  - split; [by rewrite length_insert|].
    intros row' (k & Hk)%list_elem_of_lookup_1.
    destruct (decide (k = i)) as [->|Hne].
    + rewrite list_lookup_insert_eq in Hk by (by eapply lookup_lt_Some).
      inv_Ok Hk. by rewrite length_insert.
    + rewrite list_lookup_insert_ne in Hk by done.
      by eapply Hw, list_elem_of_lookup_2.
  - rewrite <- Hh. by eapply lookup_lt_Some.
  - lia.
Qed.

Lemma grid_set_total height width letters i j ch :
  has_shape height width letters → i < height → j < width →
  ∃ letters', grid_set letters i j ch = Ok letters'.
Proof.
  intros [Hh Hw] Hi Hj. unfold grid_set.
  destruct (lookup_lt_is_Some_2 letters i) as [row Hrow]; [lia|].
  rewrite Hrow. rewrite decide_True; [eauto|].
  rewrite (Hw row); [done|]. by eapply list_elem_of_lookup_2.
Qed.

Lemma grid_set_get letters i j ch letters' i' j' :
  grid_set letters i j ch = Ok letters' →
  grid_get letters' i' j' =
    if decide (i' = i ∧ j' = j) then Some (Some ch) else grid_get letters i' j'.
Proof.
  intros (row & Hrow & Hj & ->)%grid_set_Ok. unfold grid_get.
  pose proof (lookup_lt_Some _ _ _ Hrow) as Hi.
  destruct (decide (i' = i)) as [->|Hne].
  - rewrite list_lookup_insert_eq by done. simpl. rewrite Hrow. simpl.
    destruct (decide (j' = j)) as [->|Hnej].
    + rewrite decide_True by done. by rewrite list_lookup_insert_eq.
    + rewrite decide_False by tauto. by rewrite list_lookup_insert_ne.
  - rewrite decide_False by tauto. by rewrite list_lookup_insert_ne.
Qed.

(** The steps of the two loops, as writes of a letter to a cell. *)
Lemma write_word_step variable word (P : Grid → Prop) letters letters' :
  P letters →
  (∀ g k ch g', P g → String.get k word = Some ch →
     grid_set g (cell_of variable k).1 (cell_of variable k).2 ch = Ok g' → P g') →
  write_word variable word letters = Ok letters' → P letters'.
Proof.
  intros HP Hstep. unfold write_word. apply foldM_invariant; [done|].
  intros g k g' Hg _ H. inv_bind H as ch Hch. apply subscript_Ok in Hch. eauto.
Qed.

Lemma letter_grid_step height width assignment (P : Grid → Prop) letters :
  P (blank_grid height width) →
  (∀ g variable word k ch g', P g → (variable, word) ∈ assignment →
     String.get k word = Some ch →
     grid_set g (cell_of variable k).1 (cell_of variable k).2 ch = Ok g' → P g') →
  letter_grid height width assignment = Ok letters → P letters.
Proof.
  intros HP Hstep. unfold letter_grid. apply foldM_invariant; [done|].
  intros g [variable word] g' Hg Hin. apply write_word_step; [done|]. eauto.
Qed.

Lemma string_get_Some_lt w k ch : String.get k w = Some ch → k < String.length w.
Proof.
  revert k. induction w as [|c w IH]; intros k; simpl; [done|].
  destruct k as [|k]; [lia|]. intros H%IH. lia.
Qed.

Lemma write_word_shape height width variable word letters letters' :
  has_shape height width letters →
  write_word variable word letters = Ok letters' →
  has_shape height width letters'.
Proof.
  intros Hs. apply write_word_step; [done|].
  intros g k ch g' Hg _ Hset.
  by apply (grid_set_shape _ _ _ _ _ _ _ Hg) in Hset as [? _].
Qed.

Lemma letter_grid_has_shape height width assignment letters :
  letter_grid height width assignment = Ok letters →
  has_shape height width letters.
Proof.
  apply letter_grid_step; [apply blank_grid_shape|].
  intros g variable word k ch g' Hg _ _ Hset.
  by apply (grid_set_shape _ _ _ _ _ _ _ Hg) in Hset as [? _].
Qed.

Lemma write_word_inside height width variable word letters letters' k :
  has_shape height width letters →
  write_word variable word letters = Ok letters' → k < String.length word →
  (cell_of variable k).1 < height ∧ (cell_of variable k).2 < width.
Proof.
  intros Hs H Hk. unfold write_word in H.
  assert (Hk' : k ∈ seq 0 (String.length word)) by (apply elem_of_seq; lia).
  revert letters Hs H Hk'. generalize (seq 0 (String.length word)) as ks.
  induction ks as [|k0 ks IH]; intros g0 Hg0 H Hk'.
  - by apply not_elem_of_nil in Hk'.
  - simpl in H. inv_bind H as g2 Hg2. inv_bind Hg2 as ch0 Hch0.
    pose proof (grid_set_shape _ _ _ _ _ _ _ Hg0 Hg2) as (Hg2s & Hi & Hj).
    apply elem_of_cons in Hk' as [->|Hk']; [done|]. by eapply IH.
Qed.

Lemma letter_grid_inside height width assignment letters :
  letter_grid height width assignment = Ok letters →
  inside_grid height width assignment.
Proof.
  unfold letter_grid. intros H variable word k Hvw Hk.
  revert H. generalize (blank_grid_shape height width).
  generalize (blank_grid height width) as g0.
  induction assignment as [|[v0 w0] a IH]; intros g0 Hg0 H.
  - by apply not_elem_of_nil in Hvw.
  - simpl in H. inv_bind H as g1 Hg1.
    apply elem_of_cons in Hvw as [Heq|Hvw].
    + inv_Ok Heq. by eapply write_word_inside.
    + eapply IH; [done| |done]. by eapply write_word_shape.
Qed.

Lemma letter_grid_total height width assignment :
  inside_grid height width assignment →
  ∃ letters, letter_grid height width assignment = Ok letters.
Proof.
  intros Hall. unfold letter_grid.
  destruct (foldM_total (has_shape height width)
              (λ letters '(variable, word), write_word variable word letters)
              (blank_grid height width) assignment) as (g & Hg & _);
    [apply blank_grid_shape| |eauto].
  intros g [variable word] Hg Hvw. unfold write_word.
  apply foldM_total; [done|].
  intros g0 k Hg0 Hk%elem_of_seq.
  destruct (string_get_lt word k) as [ch Hch]; [lia|].
  rewrite (proj2 (subscript_Ok _ _ _) Hch). simpl.
  destruct (Hall variable word k Hvw) as [Hi Hj]; [lia|].
  destruct (grid_set_total height width g0 _ _ ch Hg0 Hi Hj) as [g1 Hg1].
  exists g1. split; [done|].
  by apply (grid_set_shape _ _ _ _ _ _ _ Hg0) in Hg1 as [? _].
Qed.

Lemma grid_set_Ok_or_IndexError letters i j ch :
  (∃ letters', grid_set letters i j ch = Ok letters') ∨
  grid_set letters i j ch = Raise IndexError.
Proof.
  unfold grid_set. destruct (letters !! i) as [row|]; [|by right].
  case_decide; [left; eauto | by right].
Qed.

Lemma letter_grid_Ok_or_IndexError height width assignment :
  (∃ letters, letter_grid height width assignment = Ok letters) ∨
  letter_grid height width assignment = Raise IndexError.
Proof.
  unfold letter_grid. generalize (blank_grid height width) as g0.
  induction assignment as [|[v0 w0] l IH]; intros g0; simpl; [eauto|].
  assert (Hw : (∃ g, write_word v0 w0 g0 = Ok g) ∨
               write_word v0 w0 g0 = Raise IndexError).
  { unfold write_word. generalize (seq 0 (String.length w0)) as ks.
    intros ks. revert g0.
    induction ks as [|k ks IHk]; intros g0; [left; by eexists|].
    cbn [foldM]. destruct (String.get k w0) as [ch|] eqn:Hget.
    2:{ assert (subscript w0 k = Raise IndexError) as ->
          by (unfold subscript; by rewrite Hget).
        by right. }
    rewrite (proj2 (subscript_Ok _ _ _) Hget).
    cbn [mbind outcome_bind].
    destruct (grid_set_Ok_or_IndexError g0 (cell_of v0 k).1 (cell_of v0 k).2 ch)
      as [[g1 ->]| ->]; [|by right].
    cbn [mbind outcome_bind]. apply IHk. }
  destruct Hw as [[g ->]| ->]; [|by right]. simpl. apply IH.
Qed.

(** [letter_grid] returns a grid of [height] rows of [width] cells, and it
    returns exactly when every letter of every word falls inside the grid:
    a word that sticks out is an [IndexError]. *)
Theorem letter_grid_shape height width assignment :
  (∀ letters, letter_grid height width assignment = Ok letters →
              has_shape height width letters) ∧
  ((∃ letters, letter_grid height width assignment = Ok letters) ↔
   inside_grid height width assignment) ∧
  (¬ inside_grid height width assignment →
   letter_grid height width assignment = Raise IndexError).
Proof.
  split_and!.
  - intros letters. apply letter_grid_has_shape.
  - split; [intros [letters H]; by eapply letter_grid_inside
           | apply letter_grid_total].
  - intros Hnot.
    destruct (letter_grid_Ok_or_IndexError height width assignment)
      as [[letters H]|H]; [|done].
    by apply letter_grid_inside in H.
Qed.

Lemma letter_grid_shape_witness :
  letter_grid 3 5 [(slotA, "AB"); (slotC, "CCCCC")] = Raise IndexError.
Proof.
  apply (proj2 (proj2 (letter_grid_shape 3 5 [(slotA, "AB"); (slotC, "CCCCC")]))).
  intros Hin. destruct (Hin slotC "CCCCC" 4) as [_ Hj].
  - right. left.
  - simpl. lia.
  - vm_compute in Hj. lia.
Defined.

(** Reading the grid back. A cell that holds a letter of some word, and on
    which all the words of the assignment that cover it agree, shows that
    letter; a cell that no word covers is left [None]. *)
Theorem letter_grid_shows_words height width assignment letters :
  letter_grid height width assignment = Ok letters →
  (∀ variable word k ch,
     (variable, word) ∈ assignment → String.get k word = Some ch →
     (∀ variable' word' k' ch',
        (variable', word') ∈ assignment → String.get k' word' = Some ch' →
        cell_of variable' k' = cell_of variable k → ch' = ch) →
     grid_get letters (cell_of variable k).1 (cell_of variable k).2 = Some (Some ch)) ∧
  (∀ i j, i < height → j < width →
     (∀ variable word k, (variable, word) ∈ assignment → k < String.length word →
                         cell_of variable k ≠ (i, j)) →
     grid_get letters i j = Some None).
Proof.
  intros H. split.
  - intros variable word k ch Hvw Hch Hagree.
    set (i := (cell_of variable k).1). set (j := (cell_of variable k).2).
    (* once the cell shows [ch], it keeps showing it *)
    assert (Hkeep : ∀ g v w k0 c0 g',
      grid_get g i j = Some (Some ch) → (v, w) ∈ assignment →
      String.get k0 w = Some c0 →
      grid_set g (cell_of v k0).1 (cell_of v k0).2 c0 = Ok g' →
      grid_get g' i j = Some (Some ch)).
    { intros g v w k0 c0 g' Hg Hin Hc0 Hset.
      rewrite (grid_set_get _ _ _ _ _ i j Hset). case_decide as Hcell; [|done].
      do 2 f_equal. apply (Hagree v w k0 c0 Hin Hc0).
      destruct Hcell as [Hi Hj]. subst i j.
      destruct (cell_of v k0), (cell_of variable k). simpl in *. congruence. }
    unfold letter_grid in H. revert H.
    generalize (blank_grid height width) as g0.
    assert (Hsub : ∀ p, p ∈ assignment → p ∈ assignment) by done.
    revert Hvw Hsub. generalize assignment at 1 2 4 as l.
    induction l as [|[v0 w0] l IH]; intros Hvw Hsub g0 H.
    + by apply not_elem_of_nil in Hvw.
    + simpl in H. inv_bind H as g1 Hg1.
      assert (Hrest : grid_get g1 i j = Some (Some ch) →
                      grid_get letters i j = Some (Some ch)).
      { intros Hg1'. revert H.
        apply (foldM_invariant (λ g, grid_get g i j = Some (Some ch)));
          [done|].
        intros g [v w] g' Hg Hin.
        apply (write_word_step v w (λ g, grid_get g i j = Some (Some ch)));
          [done|].
        intros g2 k2 c2 g3 Hg2 Hc2.
        apply (Hkeep g2 v w k2 c2 g3 Hg2); [|done].
        apply Hsub. by right. }
      apply elem_of_cons in Hvw as [Heq|Hvw].
      * inv_Ok Heq. apply Hrest.
        unfold write_word in Hg1.
        assert (Hk : k ∈ seq 0 (String.length w0)).
        { apply elem_of_seq. apply string_get_Some_lt in Hch. lia. }
        revert Hg1 Hk. generalize (seq 0 (String.length w0)) as ks.
        intros ks. revert g0.
        induction ks as [|k0 ks IHk]; intros g0 Hg1 Hk.
        -- by apply not_elem_of_nil in Hk.
        -- simpl in Hg1. inv_bind Hg1 as g2 Hg2. inv_bind Hg2 as c0 Hc0.
           apply subscript_Ok in Hc0.
           apply elem_of_cons in Hk as [->|Hk]; [|by eapply IHk].
           assert (c0 = ch) as -> by congruence.
           assert (grid_get g2 i j = Some (Some ch)) as Hg2'.
           { rewrite (grid_set_get _ _ _ _ _ i j Hg2).
             by rewrite decide_True. }
           revert Hg1.
           apply (foldM_invariant (λ g, grid_get g i j = Some (Some ch)));
             [done|].
           intros g k1 g' Hg _ Hstep. inv_bind Hstep as c1 Hc1.
           apply subscript_Ok in Hc1.
           apply (Hkeep g v0 w0 k1 c1 g' Hg); [apply Hsub; left|done..].
      * apply (IH Hvw) in H; [done|]. intros p Hp. apply Hsub. by right.
  - intros i j Hi Hj Hfree. revert H.
    apply (letter_grid_step height width assignment
             (λ g, grid_get g i j = Some None)).
    + unfold grid_get, blank_grid.
      rewrite lookup_replicate_2 by done. simpl.
      by rewrite lookup_replicate_2.
    + intros g variable word k ch g' Hg Hin Hch Hset.
      rewrite (grid_set_get _ _ _ _ _ i j Hset). rewrite decide_False; [done|].
      intros [-> ->]. apply (Hfree variable word k Hin).
      * by eapply string_get_Some_lt.
      * by destruct (cell_of variable k).
Qed.

Lemma letter_grid_shows_words_witness :
  ∃ letters,
    letter_grid 3 5 [(slotC, "CCCC"); (slotB, "BXC"); (slotA, "AB")] = Ok letters ∧
    grid_get letters 2 1 = Some (Some "C"%char) ∧
    grid_get letters 1 0 = Some None.
Proof.
  destruct (letter_grid_total 3 5
              [(slotC, "CCCC"); (slotB, "BXC"); (slotA, "AB")])
    as [letters H].
  { intros v w k Hin Hk.
    repeat (apply elem_of_cons in Hin as [Heq|Hin]; [inv_Ok Heq|]);
      [..|by apply not_elem_of_nil in Hin];
      simpl in Hk; unfold cell_of; simpl; lia. }
  exists letters. split; [done|].
  destruct (letter_grid_shows_words 3 5 _ letters H) as [Hshow Hblank]. split.
  - apply (Hshow slotB "BXC" 2 "C"%char); [right; left|reflexivity|].
    intros v w k ch Hin Hch Hcell.
    repeat (apply elem_of_cons in Hin as [Heq|Hin]; [inv_Ok Heq|]);
      [..|by apply not_elem_of_nil in Hin];
      unfold cell_of in Hcell; simpl in Hcell; inv_Ok Hcell;
      try (simpl in Hch; congruence); try lia;
      repeat (destruct k as [|k]; simpl in *; try lia; try congruence).
  - apply Hblank; [lia..|].
    intros v w k Hin Hk Hcell.
    repeat (apply elem_of_cons in Hin as [Heq|Hin]; [inv_Ok Heq|]);
      [..|by apply not_elem_of_nil in Hin];
      unfold cell_of in Hcell; simpl in Hcell; inv_Ok Hcell; lia.
Defined.

(** ** Termination of the search *)

(** [backtrack] recurses once per variable it assigns: a recursion depth
    above the number of variables without a word is never exhausted, and
    the result does not depend on how far above it is. *)
Theorem backtrack_depth_bounded c rnd fuel fuel' a st :
  unassigned_count c a < fuel → unassigned_count c a < fuel' →
  backtrack c rnd fuel a st ≠ OutOfFuel ∧
  backtrack c rnd fuel' a st = backtrack c rnd fuel a st.
Proof.
  intros Hlt Hlt'. split.
  - by apply backtrack_not_OutOfFuel.
  - by apply backtrack_fuel.
Qed.

Lemma backtrack_depth_bounded_witness :
  let st := {| domains := store1; draws := 0; calls := 0 |} in
  backtrack (chain vocab1) rnd0 4 [] st ≠ OutOfFuel ∧
  backtrack (chain vocab1) rnd0 7 [] st = backtrack (chain vocab1) rnd0 4 [] st.
Proof.
  intros st. apply (backtrack_depth_bounded (chain vocab1) rnd0 4 7 [] st);
    vm_compute; lia.
Defined.
